(** * storage_router: a segmented key-value store over one SQLite table

    Shallow embedding of [src/storage_router.py].  The module keeps one
    process-wide connection [db] to a table [automerge_storage] whose primary
    key is the four text columns [segment0 .. segment3] and whose payload is
    the blob column [data].  The five request handlers ([save_chunk],
    [load_chunk], [remove_chunk], [load_range], [remove_range]) are embedded
    as computations in a state-and-exception monad over that connection. *)

From Stdlib Require Import List Permutation ZArith NArith Bool Arith Lia.
From Stdlib.Strings Require Import String Ascii Byte.
From Stdlib Require Import DecimalString.
Import ListNotations.
Local Open Scope string_scope.

(** ** Constants and exceptions *)

Definition DB_PATH : string := "automerge_storage.db".
Definition MAX_SEGMENTS : nat := 4.

Module status.
Definition HTTP_400_BAD_REQUEST : Z := 400%Z.
Definition HTTP_404_NOT_FOUND : Z := 404%Z.
End status.

(** What a handler can raise: FastAPI's [HTTPException], and the two sqlite3
    errors a statement can produce before touching any row (a column that
    does not exist; a parameter tuple of the wrong size). *)
Inductive exn : Type :=
| HTTPException (status_code : Z) (detail : string)
| OperationalError
| ProgrammingError.

Inductive result (A : Type) : Type :=
| Ok (a : A)
| Raise (e : exn).
Arguments Ok {A} a.
Arguments Raise {A} e.

(** ** The table *)

(** One row of [automerge_storage]:
    [(segment0, segment1, segment2, segment3, data)]. *)
Record row : Type := mkRow {
  segment0 : string;
  segment1 : string;
  segment2 : string;
  segment3 : string;
  data : list byte
}.

Definition table : Type := list row.

(** The connection [db]: the rows as this connection sees them, and the rows
    of the last [commit]. *)
Record connection : Type := mkConn {
  current : table;
  committed : table
}.

(** ** The handler monad: state passing, an exception keeps the state reached *)

Definition M (A : Type) : Type := connection -> result A * connection.

Definition ret {A} (a : A) : M A := fun c => (Ok a, c).
Definition raise {A} (e : exn) : M A := fun c => (Raise e, c).
Definition bind {A B} (m : M A) (k : A -> M B) : M B :=
  fun c => match m c with
           | (Ok a, c') => k a c'
           | (Raise e, c') => (Raise e, c')
           end.

Declare Scope handler_scope.
Delimit Scope handler_scope with handler.
Notation "x <- m ;; k" := (bind m (fun x => k))
  (at level 61, m at next level, right associativity) : handler_scope.
Notation "m ;;; k" := (bind m (fun _ => k))
  (at level 61, right associativity) : handler_scope.
Local Open Scope handler_scope.

(** ** SQL statements over the table *)

(** Column [segment{i}] of a row; [None] is "no such column". *)
Definition segment (i : nat) (r : row) : option string :=
  match i with
  | 0 => Some (segment0 r)
  | 1 => Some (segment1 r)
  | 2 => Some (segment2 r)
  | 3 => Some (segment3 r)
  | _ => None
  end.

(** A WHERE clause [segment{i1} = ? AND segment{i2} = ? AND ...] is the list
    of its column indices; the parameters are bound to the placeholders in
    order.  Comparison of TEXT values is exact string equality. *)
Fixpoint where_holds (conditions : list nat) (params : list string) (r : row)
  : bool :=
  match conditions, params with
  | i :: conditions', p :: params' =>
      match segment i r with
      | Some s => String.eqb s p && where_holds conditions' params' r
      | None => false
      end
  | _, _ => true
  end.

(** Preparing and binding a statement: every named column must exist, and
    there must be as many parameters as placeholders. *)
Definition prepare (conditions : list nat) (params : list string) : M unit :=
  if negb (forallb (fun i => Nat.ltb i MAX_SEGMENTS) conditions) then
    raise OperationalError
  else if negb (Nat.eqb (List.length params) (List.length conditions)) then
    raise ProgrammingError
  else ret tt.

(** [cursor.execute("SELECT ... FROM automerge_storage WHERE <conditions>",
    params)]: the cursor then holds the selected rows.  The statement has no
    ORDER BY, so the order in which SQLite yields them is its own choice (in
    practice that of the primary-key index); here they come in the order of
    the list, and what is stated about the rows of a range answer is stated
    up to their order. *)
Definition execute_select (conditions : list nat) (params : list string)
  : M (list row) :=
  prepare conditions params ;;;
  fun c => (Ok (filter (where_holds conditions params) (current c)), c).

(** [cursor.execute("DELETE FROM automerge_storage WHERE <conditions>",
    params)]. *)
Definition execute_delete (conditions : list nat) (params : list string)
  : M unit :=
  prepare conditions params ;;;
  fun c =>
    (Ok tt,
     mkConn (filter (fun r => negb (where_holds conditions params r)) (current c))
            (committed c)).

(** The primary key of a row, and its comparison. *)
Definition primary_key (r : row) : list string :=
  [segment0 r; segment1 r; segment2 r; segment3 r].

Definition same_key (r r' : row) : bool :=
  String.eqb (segment0 r) (segment0 r') && String.eqb (segment1 r) (segment1 r')
  && String.eqb (segment2 r) (segment2 r') && String.eqb (segment3 r) (segment3 r').

(** [INSERT INTO automerge_storage (...) VALUES (...)
     ON CONFLICT(segment0, segment1, segment2, segment3)
     DO UPDATE SET data=excluded.data] on the rows. *)
Fixpoint insert_on_conflict_update (new : row) (t : table) : table :=
  match t with
  | [] => [new]
  | r :: t' =>
      if same_key r new
      then mkRow (segment0 r) (segment1 r) (segment2 r) (segment3 r) (data new) :: t'
      else r :: insert_on_conflict_update new t'
  end.

(** The statement of [save_chunk], with its five parameters
    [( *segments, data)]: four segments are needed for the five placeholders. *)
Definition execute_upsert (segments : list string) (blob : list byte) : M unit :=
  match segments with
  | [s0; s1; s2; s3] =>
      fun c =>
        (Ok tt,
         mkConn (insert_on_conflict_update (mkRow s0 s1 s2 s3 blob) (current c))
                (committed c))
  | _ => raise ProgrammingError
  end.

(** [db.commit()]. *)
Definition commit : M unit :=
  fun c => (Ok tt, mkConn (current c) (current c)).

(** [cursor.fetchone()] on a selected row set. *)
Definition fetchone (rows : list row) : option row := hd_error rows.

(** ** base64.b64encode *)

Definition b64_alphabet : string :=
  "ABCDEFGHIJKLMNOPQRSTUVWXYZabcdefghijklmnopqrstuvwxyz0123456789+/".

Definition b64_char (n : N) : ascii :=
  match String.get (N.to_nat n) b64_alphabet with
  | Some a => a
  | None => "="%char
  end.

Fixpoint b64encode (s : list byte) : string :=
  match s with
  | [] => EmptyString
  | [a] =>
      let x := Byte.to_N a in
      String (b64_char (N.shiftr x 2))
        (String (b64_char (N.shiftl (N.land x 3) 4)) "==")
  | [a; b] =>
      let x := Byte.to_N a in
      let y := Byte.to_N b in
      String (b64_char (N.shiftr x 2))
        (String (b64_char (N.lor (N.shiftl (N.land x 3) 4) (N.shiftr y 4)))
           (String (b64_char (N.shiftl (N.land y 15) 2)) "="))
  | a :: b :: c :: rest =>
      let x := Byte.to_N a in
      let y := Byte.to_N b in
      let z := Byte.to_N c in
      String (b64_char (N.shiftr x 2))
        (String (b64_char (N.lor (N.shiftl (N.land x 3) 4) (N.shiftr y 4)))
           (String (b64_char (N.lor (N.shiftl (N.land y 15) 2) (N.shiftr z 6)))
              (String (b64_char (N.land z 63)) (b64encode rest))))
  end.

(** ** The module's functions *)

Definition string_of_nat (n : nat) : string :=
  NilEmpty.string_of_uint (Nat.to_uint n).

(** [pad_segments(key)] *)
Definition pad_segments (key : list string) : M (list string) :=
  if Nat.ltb MAX_SEGMENTS (List.length key) then
    raise (HTTPException status.HTTP_400_BAD_REQUEST
             ("Key cannot have more than " ++ string_of_nat MAX_SEGMENTS
              ++ " segments"))
  else
    let padded_key := (key ++ repeat "" (MAX_SEGMENTS - List.length key))%list in
    ret padded_key.

(** The request of [save_chunk]: only its body is read. *)
Record Request : Type := mkRequest { body : list byte }.

(** The JSON object [{"status": "ok"}]. *)
Definition status_ok : list (string * string) := [("status", "ok")].

(** Python's [not key] on a list. *)
Definition is_empty (key : list string) : bool :=
  match key with [] => true | _ => false end.

(** [PUT /storage/item] *)
Definition save_chunk (request : Request) (key : list string)
  : M (list (string * string)) :=
  if is_empty key then
    raise (HTTPException status.HTTP_400_BAD_REQUEST "Key is required")
  else
    segments <- pad_segments key ;;
    let data := body request in
    execute_upsert segments data ;;;
    commit ;;;
    ret status_ok.

(** [Response(content=..., media_type=...)] *)
Record Response : Type := mkResponse {
  content : list byte;
  media_type : string
}.

(** [GET /storage/item] *)
Definition load_chunk (key : list string) : M Response :=
  if is_empty key then
    raise (HTTPException status.HTTP_400_BAD_REQUEST "Key is required")
  else
    segments <- pad_segments key ;;
    rows <- execute_select [0; 1; 2; 3] segments ;;
    match fetchone rows with
    | None => raise (HTTPException status.HTTP_404_NOT_FOUND "Item not found")
    | Some row => ret (mkResponse (data row) "application/octet-stream")
    end.

(** [DELETE /storage/item] *)
Definition remove_chunk (key : list string) : M (list (string * string)) :=
  if is_empty key then
    raise (HTTPException status.HTTP_400_BAD_REQUEST "Key is required")
  else
    segments <- pad_segments key ;;
    execute_delete [0; 1; 2; 3] segments ;;;
    commit ;;;
    ret status_ok.

(** One entry [{"key": original_key, "data": encoded_data}] of a range
    result. *)
Record range_item : Type := mkItem {
  item_key : list string;
  item_data : string
}.

(** [[row[i] for i in range(MAX_SEGMENTS) if row[i] != ""]] *)
Definition original_key (r : row) : list string :=
  flat_map
    (fun i => match segment i r with
              | Some s => if String.eqb s "" then [] else [s]
              | None => []
              end)
    (seq 0 MAX_SEGMENTS).

(** The body of the [for row in rows] loop of [load_range]. *)
Definition range_result (r : row) : range_item :=
  let data := data r in
  let encoded_data := b64encode data in
  mkItem (original_key r) encoded_data.

Definition prefix_error : exn :=
  HTTPException status.HTTP_400_BAD_REQUEST
    ("Prefix must have between 1 and " ++ string_of_nat MAX_SEGMENTS
     ++ " segments").

(** [GET /storage/range] *)
Definition load_range (key : list string) : M (list range_item) :=
  if is_empty key || Nat.ltb MAX_SEGMENTS (List.length key) then raise prefix_error
  else
    let conditions := seq 0 (List.length key) in
    rows <- execute_select conditions key ;;
    ret (map range_result rows).

(** [DELETE /storage/range] *)
Definition remove_range (key : list string) : M (list (string * string)) :=
  if is_empty key || Nat.ltb MAX_SEGMENTS (List.length key) then raise prefix_error
  else
    let conditions := seq 0 (List.length key) in
    execute_delete conditions key ;;;
    commit ;;;
    ret status_ok.

(** The connection [get_db_connection()] returns on a fresh database file:
    [CREATE TABLE IF NOT EXISTS] leaves an empty table. *)
Definition get_db_connection : connection := mkConn [] [].

(** A connection holding the three rows of the specification's prefix
    scenario, keys [["a","b"]], [["a","c"]] and [["x"]], all committed. *)
Definition example_table : table :=
  [mkRow "a" "b" "" "" [x01]; mkRow "a" "c" "" "" [x02];
   mkRow "x" "" "" "" [x03]].

Definition example_connection : connection :=
  mkConn example_table example_table.

(** ** Stated from the specification, to be compared with the code *)

(** Following the specification's words: [matches_prefix(slots,
    prefix_segments)] is true iff [slots[i] == prefix_segments[i]] for all
    [i] in [0..len(prefix_segments)]. *)
Definition matches_prefix (slots prefix_segments : list string) : Prop :=
  forall i, (i < List.length prefix_segments)%nat ->
            nth_error slots i = nth_error prefix_segments i.

(** Invariant I1: at most one row per encoded key. *)
Definition primary_key_unique (t : table) : Prop :=
  NoDup (map primary_key t).

(** A caller-supplied key the specification calls valid. *)
Definition valid_key (key : list string) : Prop :=
  (1 <= List.length key <= MAX_SEGMENTS)%nat.

(** The keys the handlers reject: empty, or more than [MAX_SEGMENTS] long. *)
Definition invalid_key (key : list string) : Prop :=
  key = [] \/ (MAX_SEGMENTS < List.length key)%nat.

(** Slot [i] of the four-slot encoding of [key]: its [i]-th segment, or the
    padding [""] past its end.  [pad_segments_encoded] below shows this is
    what [pad_segments] returns on a valid key. *)
Definition slot (key : list string) (i : nat) : string := nth i key "".

Definition encoded_key (key : list string) : list string :=
  [slot key 0; slot key 1; slot key 2; slot key 3].

(** The row [save_chunk] writes for [key] and payload [d]. *)
Definition encoded_row (key : list string) (d : list byte) : row :=
  mkRow (slot key 0) (slot key 1) (slot key 2) (slot key 3) d.

(** The rows a range statement with parameters [key] selects. *)
Definition selected (key : list string) (t : table) : table :=
  filter (where_holds (seq 0 (List.length key)) key) t.

(** The status of a failed call, if it failed with an [HTTPException]. *)
Definition http_status {A} (x : result A * connection) : option Z :=
  match fst x with
  | Raise (HTTPException code _) => Some code
  | _ => None
  end.

(** The three point operations behind one entry. *)
Inductive point_operation : Type :=
| Put (request : Request)
| Get
| Delete.

Definition run_point (op : point_operation) (key : list string)
  : connection -> option Z * connection :=
  fun c =>
    match op with
    | Put request => let x := save_chunk request key c in (http_status x, snd x)
    | Get => let x := load_chunk key c in (http_status x, snd x)
    | Delete => let x := remove_chunk key c in (http_status x, snd x)
    end.

(** The connection has nothing pending: what it sees is what is committed. *)
Definition no_pending_changes (c : connection) : Prop :=
  committed c = current c.

(** The segments of a key that are not the empty string, in order. *)
Definition non_empty_segments (key : list string) : list string :=
  filter (fun s => negb (String.eqb s "")) key.

(** The detail of the 400 a point handler raises on a rejected key. *)
Definition point_detail (key : list string) : string :=
  if is_empty key then "Key is required"
  else "Key cannot have more than 4 segments".

(** * Lemmas about the statements *)

Section Keys.

Lemma same_key_spec (r r' : row) :
  same_key r r' = true <-> primary_key r = primary_key r'.
Proof.
  unfold same_key, primary_key.
  rewrite !andb_true_iff, !String.eqb_eq.
  split.
  - intros [[[-> ->] ->] ->]. reflexivity.
  - intros H. injection H as -> -> -> ->. auto.
Qed.

Lemma same_key_refl (r : row) : same_key r r = true.
Proof. apply same_key_spec. reflexivity. Qed.

Lemma point_where (s0 s1 s2 s3 : string) (d : list byte) (r : row) :
  where_holds [0; 1; 2; 3] [s0; s1; s2; s3] r
  = same_key r (mkRow s0 s1 s2 s3 d).
Proof.
  unfold same_key. simpl.
  rewrite andb_true_r, !andb_assoc. reflexivity.
Qed.

Lemma segment_nth (i : nat) (r : row) :
  segment i r = nth_error (primary_key r) i.
Proof.
  do 4 (destruct i as [|i]; [reflexivity|]).
  destruct i; reflexivity.
Qed.

(** A valid key is one of four shapes. *)
Lemma valid_key_cases (key : list string) :
  valid_key key ->
  (exists a, key = [a]) \/ (exists a b, key = [a; b])
  \/ (exists a b c, key = [a; b; c]) \/ (exists a b c d, key = [a; b; c; d]).
Proof.
  unfold valid_key, MAX_SEGMENTS.
  destruct key as [|a [|b [|c [|d [|e key]]]]]; simpl; intros H;
    try lia; eauto 10.
Qed.

(** A valid key pads to exactly four slots. *)
Lemma pad_segments_valid (key : list string) (c : connection) :
  valid_key key ->
  exists s0 s1 s2 s3,
    pad_segments key c = (Ok [s0; s1; s2; s3], c)
    /\ [s0; s1; s2; s3]
       = (key ++ repeat "" (MAX_SEGMENTS - List.length key))%list
    /\ is_empty key = false.
Proof.
  intros H.
  destruct (valid_key_cases key H)
    as [[a ->]|[(a & b & ->)|[(a & b & d & ->)|(a & b & d & e & ->)]]];
    do 4 eexists; repeat split; reflexivity.
Qed.

End Keys.

Section Statements.

Variable new : row.

Lemma upsert_then_select (t : table) :
  hd_error (filter (fun r => same_key r new)
              (insert_on_conflict_update new t)) = Some new.
Proof.
  induction t as [|r t IH]; simpl.
  - rewrite same_key_refl. reflexivity.
  - destruct (same_key r new) eqn:E; simpl.
    + assert (K : primary_key r = primary_key new) by (apply same_key_spec; exact E).
      unfold same_key in *; simpl. rewrite E. simpl.
      unfold primary_key in K. injection K as -> -> -> ->.
      destruct new; reflexivity.
    + rewrite E. exact IH.
Qed.

Lemma upsert_keys_present (t : table) :
  In (primary_key new) (map primary_key t) ->
  map primary_key (insert_on_conflict_update new t) = map primary_key t.
Proof.
  induction t as [|r t IH]; simpl; [tauto|].
  intros H. destruct (same_key r new) eqn:E; simpl.
  - reflexivity.
  - f_equal. apply IH. destruct H as [H|H]; [|exact H].
    apply same_key_spec in H. congruence.
Qed.

Lemma upsert_keys_absent (t : table) :
  ~ In (primary_key new) (map primary_key t) ->
  map primary_key (insert_on_conflict_update new t)
  = (map primary_key t ++ [primary_key new])%list.
Proof.
  induction t as [|r t IH]; simpl; [reflexivity|].
  intros H. destruct (same_key r new) eqn:E; simpl.
  - apply same_key_spec in E. tauto.
  - f_equal. apply IH. tauto.
Qed.

Lemma upsert_key_in (t : table) :
  In (primary_key new) (map primary_key (insert_on_conflict_update new t)).
Proof.
  induction t as [|r t IH]; simpl; [auto|].
  destruct (same_key r new) eqn:E; simpl; [|auto].
  left. unfold primary_key. simpl. apply same_key_spec in E. exact E.
Qed.

Lemma upsert_unique (t : table) :
  primary_key_unique t ->
  primary_key_unique (insert_on_conflict_update new t).
Proof.
  unfold primary_key_unique. intros H.
  destruct (in_dec (list_eq_dec string_dec) (primary_key new)
              (map primary_key t)) as [I|I].
  - rewrite upsert_keys_present by exact I. exact H.
  - rewrite upsert_keys_absent by exact I.
    apply NoDup_incl_NoDup with (l := primary_key new :: map primary_key t).
    + constructor; assumption.
    + rewrite length_app. simpl. lia.
    + intros x [<-|Hx]; apply in_or_app; simpl; auto.
Qed.

Lemma upsert_other_rows (t : table) (r : row) :
  same_key r new = false ->
  In r (insert_on_conflict_update new t) <-> In r t.
Proof.
  intros D. induction t as [|r' t IH]; simpl.
  - split; [|tauto]. intros [<-|[]]. rewrite same_key_refl in D. discriminate.
  - destruct (same_key r' new) eqn:E; simpl.
    + split; (intros [<-|H]; [|auto]).
      * exfalso. unfold same_key in D; simpl in D.
        unfold same_key in E. congruence.
      * congruence.
    + rewrite IH. tauto.
Qed.

End Statements.

Lemma delete_then_select (p : row -> bool) (t : table) :
  filter p (filter (fun r => negb (p r)) t) = [].
Proof.
  induction t as [|r t IH]; simpl; [reflexivity|].
  destruct (p r) eqn:E; simpl; [exact IH|]. rewrite E. exact IH.
Qed.

(** * The handlers on valid keys *)

Ltac key_shapes H :=
  let a := fresh "a" in
  let b := fresh "b" in
  let d := fresh "d" in
  let e := fresh "e" in
  destruct (valid_key_cases _ H)
    as [[a ->]|[(a & b & ->)|[(a & b & d & ->)|(a & b & d & e & ->)]]].

Ltac point_where_as_same_key d :=
  repeat match goal with
  | |- context [filter (where_holds [0; 1; 2; 3] [?s0; ?s1; ?s2; ?s3]) ?t] =>
      rewrite (filter_ext _ _ (point_where s0 s1 s2 s3 d) t)
  | |- context [filter (fun r => negb (where_holds [0; 1; 2; 3] [?s0; ?s1; ?s2; ?s3] r)) ?t] =>
      rewrite (filter_ext
                 (fun r => negb (where_holds [0; 1; 2; 3] [s0; s1; s2; s3] r))
                 (fun r => negb (same_key r (mkRow s0 s1 s2 s3 d)))
                 (fun r => f_equal negb (point_where s0 s1 s2 s3 d r)) t)
  end.

Section ValidKeys.

Variable key : list string.
Hypothesis key_valid : valid_key key.

Lemma pad_segments_encoded (c : connection) :
  pad_segments key c = (Ok (encoded_key key), c).
Proof. key_shapes key_valid; reflexivity. Qed.

Lemma save_chunk_valid (request : Request) (c : connection) :
  save_chunk request key c
  = (Ok status_ok,
     let t := insert_on_conflict_update (encoded_row key (body request))
                (current c) in
     mkConn t t).
Proof. key_shapes key_valid; reflexivity. Qed.

Lemma load_chunk_valid (d : list byte) (c : connection) :
  load_chunk key c
  = (match hd_error (filter (fun r => same_key r (encoded_row key d))
                       (current c)) with
     | None => Raise (HTTPException status.HTTP_404_NOT_FOUND "Item not found")
     | Some row => Ok (mkResponse (data row) "application/octet-stream")
     end, c).
Proof.
  key_shapes key_valid; cbn -[where_holds]; point_where_as_same_key d;
    unfold fetchone, encoded_row, slot; simpl;
    match goal with |- context [hd_error ?l] => destruct (hd_error l) end;
    reflexivity.
Qed.

Lemma remove_chunk_valid (d : list byte) (c : connection) :
  remove_chunk key c
  = (Ok status_ok,
     let t := filter (fun r => negb (same_key r (encoded_row key d)))
                (current c) in
     mkConn t t).
Proof.
  key_shapes key_valid; cbn -[where_holds]; point_where_as_same_key d;
    reflexivity.
Qed.

Lemma load_range_valid (c : connection) :
  load_range key c = (Ok (map range_result (selected key (current c))), c).
Proof. key_shapes key_valid; reflexivity. Qed.

Lemma remove_range_valid (c : connection) :
  remove_range key c
  = (Ok status_ok,
     let t := filter (fun r => negb (where_holds (seq 0 (List.length key)) key r))
                (current c) in
     mkConn t t).
Proof. key_shapes key_valid; reflexivity. Qed.

End ValidKeys.

(** The WHERE clause of the range statements is the specification's
    [matches_prefix] on the encoded key of the row. *)
Lemma where_holds_from (r : row) (key : list string) (n : nat) :
  where_holds (seq n (List.length key)) key r = true
  <-> forall i, (i < List.length key)%nat ->
                nth_error (primary_key r) (n + i) = nth_error key i.
Proof.
  revert n. induction key as [|p key IH]; intros n; simpl.
  - split; [intros _ i Hi; lia | reflexivity].
  - rewrite segment_nth.
    destruct (nth_error (primary_key r) n) as [s|] eqn:E.
    + rewrite andb_true_iff, String.eqb_eq, IH. split.
      * intros [-> H] [|i] Hi.
        -- rewrite Nat.add_0_r. exact E.
        -- rewrite Nat.add_succ_r. apply (H i). lia.
      * intros H. split.
        -- specialize (H 0%nat ltac:(lia)). rewrite Nat.add_0_r, E in H.
           simpl in H. congruence.
        -- intros i Hi. specialize (H (S i) ltac:(lia)).
           rewrite Nat.add_succ_r in H. exact H.
    + split; [discriminate|]. intros H.
      specialize (H 0%nat ltac:(lia)). rewrite Nat.add_0_r, E in H.
      discriminate.
Qed.

Lemma where_holds_matches_prefix (r : row) (key : list string) :
  where_holds (seq 0 (List.length key)) key r = true
  <-> matches_prefix (primary_key r) key.
Proof. apply (where_holds_from r key 0). Qed.

Lemma selected_spec (key : list string) (t : table) (r : row) :
  In r (selected key t) <-> In r t /\ matches_prefix (primary_key r) key.
Proof.
  unfold selected. rewrite filter_In, where_holds_matches_prefix. tauto.
Qed.

Lemma filter_filter_implied (p q : row -> bool) (t : table) :
  (forall r, p r = true -> q r = true) ->
  filter p (filter q t) = filter p t.
Proof.
  intros H. induction t as [|r t IH]; simpl; [reflexivity|].
  destruct (q r) eqn:Q; simpl.
  - destruct (p r); [f_equal|]; exact IH.
  - destruct (p r) eqn:P; [|exact IH].
    apply H in P. congruence.
Qed.

Lemma encoded_row_key (key : list string) (d : list byte) :
  primary_key (encoded_row key d) = encoded_key key.
Proof. reflexivity. Qed.

(** * Point operations *)

(** C1. For every key [k] of 1 to 4 arbitrary strings and every byte payload
    [v] (the empty payload included), on every connection, [save_chunk] of
    [v] at [k] succeeds and a following [load_chunk] of [k] answers with
    exactly [v]. *)
Theorem put_get_roundtrip (k : list string) (v : list byte) (c : connection) :
  valid_key k ->
  exists c',
    save_chunk (mkRequest v) k c = (Ok status_ok, c')
    /\ load_chunk k c' = (Ok (mkResponse v "application/octet-stream"), c').
Proof.
  intros H. eexists. rewrite (save_chunk_valid k H). split; [reflexivity|].
  rewrite (load_chunk_valid k H v). simpl.
  rewrite upsert_then_select. reflexivity.
Qed.

Lemma put_get_roundtrip_witness :
  valid_key ["doc1"; "snap"]
  /\ exists c',
      save_chunk (mkRequest [x01; x02]) ["doc1"; "snap"] get_db_connection
      = (Ok status_ok, c')
      /\ load_chunk ["doc1"; "snap"] c'
         = (Ok (mkResponse [x01; x02] "application/octet-stream"), c').
Proof.
  split.
  - unfold valid_key, MAX_SEGMENTS. simpl. lia.
  - apply (put_get_roundtrip ["doc1"; "snap"] [x01; x02] get_db_connection).
    unfold valid_key, MAX_SEGMENTS. simpl. lia.
Defined.

(** C4. For every valid key [k] and payloads [v1], [v2]: [save_chunk] of
    [v1] then of [v2] at [k], then [load_chunk] of [k], answers [v2].  The
    second write replaces the value of the row already there: the table
    keeps the same keys in the same places (no second row appears), rows
    under other keys are the same before and after, and a table with at
    most one row per key stays so through both writes. *)
Theorem put_put_get_overwrite
    (k : list string) (v1 v2 : list byte) (c : connection) :
  valid_key k ->
  exists c1 c2,
    save_chunk (mkRequest v1) k c = (Ok status_ok, c1)
    /\ save_chunk (mkRequest v2) k c1 = (Ok status_ok, c2)
    /\ load_chunk k c2 = (Ok (mkResponse v2 "application/octet-stream"), c2)
    /\ map primary_key (current c2) = map primary_key (current c1)
    /\ (forall r, primary_key r <> encoded_key k ->
                  (In r (current c2) <-> In r (current c1)))
    /\ (primary_key_unique (current c) ->
        primary_key_unique (current c1) /\ primary_key_unique (current c2)).
Proof.
  intros H. do 2 eexists. rewrite !(save_chunk_valid k H).
  split; [reflexivity|]. split; [reflexivity|].
  rewrite (load_chunk_valid k H v2). simpl.
  rewrite upsert_then_select.
  split; [reflexivity|]. split; [|split].
  - apply upsert_keys_present.
    rewrite (encoded_row_key k v2), <- (encoded_row_key k v1).
    apply upsert_key_in.
  - intros r D. apply upsert_other_rows.
    destruct (same_key r (encoded_row k v2)) eqn:E; [|reflexivity].
    apply same_key_spec in E. rewrite encoded_row_key in E. contradiction.
  - intros U. split; [|apply upsert_unique]; apply upsert_unique; exact U.
Qed.

Lemma put_put_get_overwrite_witness :
  valid_key ["doc1"]
  /\ exists c1 c2,
      save_chunk (mkRequest [x01]) ["doc1"] get_db_connection = (Ok status_ok, c1)
      /\ save_chunk (mkRequest [x02]) ["doc1"] c1 = (Ok status_ok, c2)
      /\ load_chunk ["doc1"] c2
         = (Ok (mkResponse [x02] "application/octet-stream"), c2)
      /\ map primary_key (current c2) = map primary_key (current c1)
      /\ (forall r, primary_key r <> encoded_key ["doc1"] ->
                    (In r (current c2) <-> In r (current c1)))
      /\ (primary_key_unique (current get_db_connection) ->
          primary_key_unique (current c1) /\ primary_key_unique (current c2)).
Proof.
  split.
  - unfold valid_key, MAX_SEGMENTS. simpl. lia.
  - apply (put_put_get_overwrite ["doc1"] [x01] [x02] get_db_connection).
    unfold valid_key, MAX_SEGMENTS. simpl. lia.
Defined.

(** C6. For every valid key [k], on every connection (whether or not a row
    with that key is there), [remove_chunk] answers [{"status": "ok"}]; a
    second [remove_chunk] answers the same and changes nothing more; and
    [load_chunk] of [k] afterwards raises 404 "Item not found". *)
Theorem delete_idempotent (k : list string) (c : connection) :
  valid_key k ->
  exists c',
    remove_chunk k c = (Ok status_ok, c')
    /\ remove_chunk k c' = (Ok status_ok, c')
    /\ load_chunk k c'
       = (Raise (HTTPException status.HTTP_404_NOT_FOUND "Item not found"), c').
Proof.
  intros H. eexists. rewrite (remove_chunk_valid k H []).
  split; [reflexivity|]. split.
  - rewrite (remove_chunk_valid k H []). simpl. f_equal.
    rewrite filter_filter_implied; [reflexivity|]. intros r E. exact E.
  - rewrite (load_chunk_valid k H []). simpl.
    rewrite (delete_then_select (fun r => same_key r (encoded_row k []))).
    reflexivity.
Qed.

Lemma delete_idempotent_witness :
  valid_key ["x"]
  /\ exists c',
      remove_chunk ["x"] example_connection = (Ok status_ok, c')
      /\ remove_chunk ["x"] c' = (Ok status_ok, c')
      /\ load_chunk ["x"] c'
         = (Raise (HTTPException status.HTTP_404_NOT_FOUND "Item not found"), c').
Proof.
  split.
  - unfold valid_key, MAX_SEGMENTS. simpl. lia.
  - apply (delete_idempotent ["x"] example_connection).
    unfold valid_key, MAX_SEGMENTS. simpl. lia.
Defined.

(** C8. For every key [k] with [1 <= len(k) < 4] and every payload [v], the
    key [k ++ [""]] pads to the same four slots as [k], so [save_chunk] of
    [v] at [k ++ [""]] followed by [load_chunk] of [k] answers [v]. *)
Theorem trailing_empty_segment_collides
    (k : list string) (v : list byte) (c : connection) :
  (1 <= List.length k < MAX_SEGMENTS)%nat ->
  pad_segments (k ++ [""])%list c = (Ok (encoded_key k), c)
  /\ pad_segments k c = (Ok (encoded_key k), c)
  /\ exists c',
      save_chunk (mkRequest v) (k ++ [""])%list c = (Ok status_ok, c')
      /\ load_chunk k c' = (Ok (mkResponse v "application/octet-stream"), c').
Proof.
  unfold MAX_SEGMENTS. intros H.
  assert (V : valid_key k) by (unfold valid_key, MAX_SEGMENTS; lia).
  assert (E : forall d, encoded_row (k ++ [""])%list d = encoded_row k d).
  { destruct k as [|a [|b [|d [|e k]]]]; simpl in H; try lia; reflexivity. }
  assert (V' : valid_key (k ++ [""])%list).
  { unfold valid_key, MAX_SEGMENTS. rewrite length_app. simpl. lia. }
  split; [|split].
  - rewrite (pad_segments_encoded _ V'). do 2 f_equal.
    apply (f_equal primary_key (E [])).
  - apply (pad_segments_encoded _ V).
  - eexists. rewrite (save_chunk_valid _ V'). split; [reflexivity|].
    rewrite (load_chunk_valid k V v). simpl. rewrite E.
    rewrite upsert_then_select. reflexivity.
Qed.

Lemma trailing_empty_segment_collides_witness :
  (1 <= List.length ["doc1"] < MAX_SEGMENTS)%nat
  /\ pad_segments ["doc1"; ""] get_db_connection
     = (Ok (encoded_key ["doc1"]), get_db_connection)
  /\ pad_segments ["doc1"] get_db_connection
     = (Ok (encoded_key ["doc1"]), get_db_connection)
  /\ exists c',
      save_chunk (mkRequest [x2a]) ["doc1"; ""] get_db_connection
      = (Ok status_ok, c')
      /\ load_chunk ["doc1"] c'
         = (Ok (mkResponse [x2a] "application/octet-stream"), c').
Proof.
  split.
  - unfold MAX_SEGMENTS. simpl. lia.
  - apply (trailing_empty_segment_collides ["doc1"] [x2a] get_db_connection).
    unfold MAX_SEGMENTS. simpl. lia.
Defined.

(** * Key-length checks *)

Lemma invalid_or_valid (key : list string) :
  {invalid_key key} + {valid_key key}.
Proof.
  unfold invalid_key, valid_key.
  destruct key as [|a key]; [left; left; reflexivity|].
  destruct (le_lt_dec (List.length (a :: key)) MAX_SEGMENTS) as [L|L].
  - right. simpl in *. lia.
  - left. right. exact L.
Qed.

Lemma valid_not_invalid (key : list string) :
  valid_key key -> ~ invalid_key key.
Proof.
  unfold valid_key, invalid_key. intros H [->|L]; simpl in *; lia.
Qed.

Section InvalidKeys.

Variable key : list string.
Hypothesis key_invalid : invalid_key key.

Lemma too_long_shape :
  key = [] \/ exists a b d e f rest, key = a :: b :: d :: e :: f :: rest.
Proof.
  destruct key_invalid as [->|L]; [left; reflexivity|right].
  unfold MAX_SEGMENTS in L.
  destruct key as [|a [|b [|d [|e [|f rest]]]]]; simpl in L; try lia.
  eauto 10.
Qed.

Lemma save_chunk_invalid (request : Request) (c : connection) :
  http_status (save_chunk request key c) = Some status.HTTP_400_BAD_REQUEST
  /\ snd (save_chunk request key c) = c.
Proof.
  destruct too_long_shape as [->|(a & b & d & e & f & rest & ->)];
    split; reflexivity.
Qed.

Lemma load_chunk_invalid (c : connection) :
  http_status (load_chunk key c) = Some status.HTTP_400_BAD_REQUEST
  /\ snd (load_chunk key c) = c.
Proof.
  destruct too_long_shape as [->|(a & b & d & e & f & rest & ->)];
    split; reflexivity.
Qed.

Lemma remove_chunk_invalid (c : connection) :
  http_status (remove_chunk key c) = Some status.HTTP_400_BAD_REQUEST
  /\ snd (remove_chunk key c) = c.
Proof.
  destruct too_long_shape as [->|(a & b & d & e & f & rest & ->)];
    split; reflexivity.
Qed.

Lemma load_range_invalid (c : connection) :
  http_status (load_range key c) = Some status.HTTP_400_BAD_REQUEST
  /\ snd (load_range key c) = c.
Proof.
  destruct too_long_shape as [->|(a & b & d & e & f & rest & ->)];
    split; reflexivity.
Qed.

Lemma remove_range_invalid (c : connection) :
  http_status (remove_range key c) = Some status.HTTP_400_BAD_REQUEST
  /\ snd (remove_range key c) = c.
Proof.
  destruct too_long_shape as [->|(a & b & d & e & f & rest & ->)];
    split; reflexivity.
Qed.

End InvalidKeys.

Lemma load_chunk_valid_status (key : list string) (c : connection) :
  valid_key key ->
  http_status (load_chunk key c) <> Some status.HTTP_400_BAD_REQUEST.
Proof.
  intros V. rewrite (load_chunk_valid key V []).
  destruct (hd_error _); unfold http_status; simpl; discriminate.
Qed.

Ltac bad_request_cases key Hvalid Hinvalid :=
  destruct (invalid_or_valid key) as [Hinvalid|Hvalid];
  [ split; [intros _; exact Hinvalid | intros _]
  | split; intros ?H; exfalso; [| exact (valid_not_invalid _ Hvalid H)] ].

Section BadRequest.

Variables (key : list string) (c : connection).

Lemma save_chunk_bad_request (request : Request) :
  http_status (save_chunk request key c) = Some status.HTTP_400_BAD_REQUEST
  <-> invalid_key key.
Proof.
  bad_request_cases key V Hi.
  - apply (save_chunk_invalid key Hi).
  - rewrite (save_chunk_valid key V) in H. discriminate H.
Qed.

Lemma load_chunk_bad_request :
  http_status (load_chunk key c) = Some status.HTTP_400_BAD_REQUEST
  <-> invalid_key key.
Proof.
  bad_request_cases key V Hi.
  - apply (load_chunk_invalid key Hi).
  - exact (load_chunk_valid_status key c V H).
Qed.

Lemma remove_chunk_bad_request :
  http_status (remove_chunk key c) = Some status.HTTP_400_BAD_REQUEST
  <-> invalid_key key.
Proof.
  bad_request_cases key V Hi.
  - apply (remove_chunk_invalid key Hi).
  - rewrite (remove_chunk_valid key V []) in H. discriminate H.
Qed.

Lemma load_range_bad_request :
  http_status (load_range key c) = Some status.HTTP_400_BAD_REQUEST
  <-> invalid_key key.
Proof.
  bad_request_cases key V Hi.
  - apply (load_range_invalid key Hi).
  - rewrite (load_range_valid key V) in H. discriminate H.
Qed.

Lemma remove_range_bad_request :
  http_status (remove_range key c) = Some status.HTTP_400_BAD_REQUEST
  <-> invalid_key key.
Proof.
  bad_request_cases key V Hi.
  - apply (remove_range_invalid key Hi).
  - rewrite (remove_range_valid key V) in H. discriminate H.
Qed.

Lemma pad_segments_passes :
  valid_key key
  <-> pad_segments key c = (Ok (encoded_key key), c) /\ key <> [].
Proof.
  split.
  - intros V. split; [apply (pad_segments_encoded key V)|].
    intros ->. unfold valid_key in V. simpl in V. lia.
  - intros [P N]. destruct (invalid_or_valid key) as [I|V]; [exfalso|exact V].
    destruct (too_long_shape key I) as [->|(a & b & d & e & f & rest & ->)];
      [tauto | discriminate P].
Qed.

End BadRequest.

(** C5. Each of [save_chunk], [load_chunk], [remove_chunk], [load_range]
    and [remove_range] raises an [HTTPException] with status 400 exactly when
    the key it is given is empty or has more than 4 segments; a key of 1 to 4
    segments is exactly one that is not rejected, and exactly one that is
    non-empty and that [pad_segments] pads without raising. *)
Theorem bad_request_iff_invalid_key
    (request : Request) (key : list string) (c : connection) :
  (http_status (save_chunk request key c) = Some status.HTTP_400_BAD_REQUEST
   <-> invalid_key key)
  /\ (http_status (load_chunk key c) = Some status.HTTP_400_BAD_REQUEST
      <-> invalid_key key)
  /\ (http_status (remove_chunk key c) = Some status.HTTP_400_BAD_REQUEST
      <-> invalid_key key)
  /\ (http_status (load_range key c) = Some status.HTTP_400_BAD_REQUEST
      <-> invalid_key key)
  /\ (http_status (remove_range key c) = Some status.HTTP_400_BAD_REQUEST
      <-> invalid_key key)
  /\ (valid_key key <-> ~ invalid_key key)
  /\ (valid_key key
      <-> pad_segments key c = (Ok (encoded_key key), c) /\ key <> []).
Proof.
  split; [apply save_chunk_bad_request|].
  split; [apply load_chunk_bad_request|].
  split; [apply remove_chunk_bad_request|].
  split; [apply load_range_bad_request|].
  split; [apply remove_range_bad_request|].
  split; [|apply pad_segments_passes].
  split; [apply valid_not_invalid|].
  intros N. destruct (invalid_or_valid key) as [I|V]; [contradiction|exact V].
Qed.

(** C9. A point operation ([save_chunk], [load_chunk] or [remove_chunk])
    that fails with status 400 leaves the connection as it was, the rows it
    sees and the committed rows alike; so every later [load_chunk] answers
    what it would have answered before the failed call. *)
Theorem failed_point_operation_changes_nothing
    (op : point_operation) (key : list string) (c : connection) :
  fst (run_point op key c) = Some status.HTTP_400_BAD_REQUEST ->
  snd (run_point op key c) = c
  /\ forall k, load_chunk k (snd (run_point op key c)) = load_chunk k c.
Proof.
  intros F.
  assert (E : snd (run_point op key c) = c).
  { destruct op; simpl in *.
    - apply (save_chunk_invalid key), (save_chunk_bad_request key c request), F.
    - apply (load_chunk_invalid key), (load_chunk_bad_request key c), F.
    - apply (remove_chunk_invalid key), (remove_chunk_bad_request key c), F. }
  split; [exact E|]. intros k. rewrite E. reflexivity.
Qed.

Lemma failed_point_operation_changes_nothing_witness :
  fst (run_point (Put (mkRequest [x02])) ["a"; "b"; "c"; "d"; "e"]
         example_connection)
  = Some status.HTTP_400_BAD_REQUEST
  /\ snd (run_point (Put (mkRequest [x02])) ["a"; "b"; "c"; "d"; "e"]
            example_connection) = example_connection
  /\ forall k,
      load_chunk k (snd (run_point (Put (mkRequest [x02]))
                           ["a"; "b"; "c"; "d"; "e"] example_connection))
      = load_chunk k example_connection.
Proof.
  split.
  - reflexivity.
  - apply (failed_point_operation_changes_nothing
             (Put (mkRequest [x02])) ["a"; "b"; "c"; "d"; "e"]).
    reflexivity.
Defined.

Lemma row_eq_dec (r r' : row) : {r = r'} + {r <> r'}.
Proof.
  decide equality; try apply string_dec.
  apply (list_eq_dec Byte.byte_eq_dec).
Defined.

Lemma count_occ_filter (p : row -> bool) (t : table) (r : row) :
  count_occ row_eq_dec (filter p t) r
  = if p r then count_occ row_eq_dec t r else 0%nat.
Proof.
  induction t as [|r' t IH]; simpl; [destruct (p r); reflexivity|].
  destruct (row_eq_dec r' r) as [->|D].
  - destruct (p r) eqn:P; simpl; [|exact IH].
    destruct (row_eq_dec r r); [|contradiction]. rewrite IH. reflexivity.
  - destruct (p r') eqn:P'; simpl; [|exact IH].
    destruct (row_eq_dec r' r); [contradiction|]. exact IH.
Qed.


(** * Range operations *)



(** C7. For every valid prefix [p], on every connection, [remove_range]
    answers [{"status": "ok"}] (also when no row matches).  Afterwards the
    table holds exactly the rows that were there and do not match [p] on the
    first [len(p)] slots, each as often as before and in the same order;
    [load_range] of [p] answers the empty list; the change is committed; and
    [load_chunk] of any valid key whose encoded key does not match [p]
    answers what it answered before. *)
Theorem range_delete_removes_exactly_prefix (p : list string) (c : connection) :
  valid_key p ->
  exists c',
    remove_range p c = (Ok status_ok, c')
    /\ (forall r, In r (current c')
                  <-> In r (current c) /\ ~ matches_prefix (primary_key r) p)
    /\ (forall r, ~ matches_prefix (primary_key r) p ->
                  count_occ row_eq_dec (current c') r
                  = count_occ row_eq_dec (current c) r)
    /\ load_range p c' = (Ok [], c')
    /\ committed c' = current c'
    /\ ((forall r, In r (current c) -> ~ matches_prefix (primary_key r) p) ->
        current c' = current c)
    /\ (forall k, valid_key k -> ~ matches_prefix (encoded_key k) p ->
                  load_chunk k c' = (fst (load_chunk k c), c')).
Proof.
  intros V. eexists. rewrite (remove_range_valid p V).
  split; [reflexivity|]. simpl.
  set (w := where_holds (seq 0 (List.length p)) p).
  assert (W : forall r, w r = true <-> matches_prefix (primary_key r) p)
    by (intros r; apply where_holds_matches_prefix).
  assert (NW : forall r, negb (w r) = true <-> ~ matches_prefix (primary_key r) p).
  { intros r. rewrite negb_true_iff, <- W. destruct (w r); split; congruence. }
  repeat split.
  - apply filter_In in H. tauto.
  - apply filter_In in H. apply NW. tauto.
  - intros [I N]. apply filter_In. split; [exact I | apply NW; exact N].
  - intros r N. rewrite count_occ_filter.
    apply NW in N. rewrite N. reflexivity.
  - rewrite (load_range_valid p V). simpl. unfold selected. fold w.
    rewrite delete_then_select. reflexivity.
  - intros N. apply forallb_filter_id. apply forallb_forall.
    intros r I. apply NW. exact (N r I).
  - intros k Vk N. rewrite !(load_chunk_valid k Vk []). simpl.
    rewrite filter_filter_implied; [reflexivity|].
    intros r E. apply NW. apply same_key_spec in E.
    rewrite E, encoded_row_key. exact N.
Qed.

Lemma range_delete_removes_exactly_prefix_witness :
  valid_key ["a"]
  /\ exists c',
      remove_range ["a"] example_connection = (Ok status_ok, c')
      /\ current c' = [mkRow "x" "" "" "" [x03]]
      /\ load_range ["a"] c' = (Ok [], c')
      /\ load_chunk ["x"] c'
         = (Ok (mkResponse [x03] "application/octet-stream"), c').
Proof.
  assert (V : valid_key ["a"]) by (unfold valid_key, MAX_SEGMENTS; simpl; lia).
  split; [exact V|].
  destruct (range_delete_removes_exactly_prefix ["a"] example_connection V)
    as (c' & R & _ & _ & L & _ & _ & G).
  exists c'. split; [exact R|].
  injection R as <-.
  split; [reflexivity|]. split; [exact L|]. reflexivity.
Defined.

(** * Keys reported by a range read *)

Lemma original_key_filter (r : row) :
  original_key r = filter (fun s => negb (String.eqb s "")) (primary_key r).
Proof.
  unfold original_key, primary_key. simpl.
  destruct (segment0 r =? ""), (segment1 r =? ""), (segment2 r =? ""),
    (segment3 r =? ""); reflexivity.
Qed.

Lemma original_key_no_empty (r : row) : ~ In "" (original_key r).
Proof.
  rewrite original_key_filter. intros I. apply filter_In in I.
  destruct I as [_ I]. discriminate I.
Qed.

(** C10. For every valid prefix, [load_range] succeeds and no key it
    reports has an empty-string segment: every entry reports a selected row
    of the table under its four slots with every empty slot left out,
    wherever it stands, and up to their order the reported keys are those of
    all selected rows.  So the row stored as [("a", "", "b", "")] is reported
    under the key [["a", "b"]]. *)
Theorem range_keys_have_no_empty_segment (key : list string) (c : connection) :
  valid_key key ->
  exists items,
    load_range key c = (Ok items, c)
    /\ Forall (fun item => ~ In "" (item_key item)) items
    /\ (forall item,
          In item items ->
          exists r, In r (current c) /\ matches_prefix (primary_key r) key
                    /\ item_key item
                       = filter (fun s => negb (String.eqb s ""))
                           (primary_key r))
    /\ Permutation (map item_key items)
         (map (fun r => filter (fun s => negb (String.eqb s "")) (primary_key r))
            (selected key (current c)))
    /\ forall d, item_key (range_result (mkRow "a" "" "b" "" d)) = ["a"; "b"].
Proof.
  intros V. eexists. rewrite (load_range_valid key V).
  split; [reflexivity|]. split; [|split; [|split]].
  - apply Forall_forall. intros item I. apply in_map_iff in I.
    destruct I as (r & <- & _). apply original_key_no_empty.
  - intros item I. apply in_map_iff in I. destruct I as (r & <- & S).
    apply selected_spec in S. exists r.
    split; [apply S|]. split; [apply S|]. apply original_key_filter.
  - rewrite map_map.
    rewrite (map_ext _ _ (fun r => original_key_filter r)).
    apply Permutation_refl.
  - reflexivity.
Qed.

Lemma range_keys_have_no_empty_segment_witness :
  valid_key ["a"]
  /\ exists items,
      load_range ["a"]
        (mkConn [mkRow "a" "" "b" "" [x01]] [mkRow "a" "" "b" "" [x01]])
      = (Ok items, mkConn [mkRow "a" "" "b" "" [x01]] [mkRow "a" "" "b" "" [x01]])
      /\ Forall (fun item => ~ In "" (item_key item)) items
      /\ Permutation (map item_key items) [["a"; "b"]].
Proof.
  assert (V : valid_key ["a"]) by (unfold valid_key, MAX_SEGMENTS; simpl; lia).
  split; [exact V|].
  destruct (range_keys_have_no_empty_segment ["a"]
              (mkConn [mkRow "a" "" "b" "" [x01]] [mkRow "a" "" "b" "" [x01]]) V)
    as (items & L & F & _ & K & _).
  exists items. split; [exact L|]. split; [exact F|exact K].
Defined.

(** C2 (the code departs from it).  The key [["a", "", "b"]] is accepted
    and stored in the slots [("a", "", "b", "")]; [load_chunk] of that key
    finds the row, and [load_chunk] of [["a", "b"]] does not; yet
    [load_range] reports the row under the key [["a", "b"]], which is not the
    key it was written with: the interior empty segment is dropped along with
    the padding. *)
Theorem interior_empty_segment_not_recovered :
  exists c,
    save_chunk (mkRequest [x01]) ["a"; ""; "b"] get_db_connection
    = (Ok status_ok, c)
    /\ map primary_key (current c) = [["a"; ""; "b"; ""]]
    /\ load_chunk ["a"; ""; "b"] c
       = (Ok (mkResponse [x01] "application/octet-stream"), c)
    /\ http_status (load_chunk ["a"; "b"] c) = Some status.HTTP_404_NOT_FOUND
    /\ load_range ["a"] c = (Ok [mkItem ["a"; "b"] "AQ=="], c)
    /\ original_key (mkRow "a" "" "b" "" [x01]) <> ["a"; ""; "b"].
Proof.
  exists (mkConn [mkRow "a" "" "b" "" [x01]] [mkRow "a" "" "b" "" [x01]]).
  repeat split. discriminate.
Qed.


(** * Further properties of the handlers *)

(** ** Padding *)

(** X1. [pad_segments] accepts every key of at most 4 segments, the empty
    key included: it returns exactly 4 slots, the key first and then only
    empty strings, and leaves the connection alone. *)
Theorem pad_segments_four_slots (key : list string) (c : connection) :
  (List.length key <= MAX_SEGMENTS)%nat ->
  exists slots,
    pad_segments key c = (Ok slots, c)
    /\ List.length slots = MAX_SEGMENTS
    /\ firstn (List.length key) slots = key
    /\ skipn (List.length key) slots
       = repeat "" (MAX_SEGMENTS - List.length key).
Proof.
  unfold MAX_SEGMENTS. intros L.
  destruct key as [|a [|b [|d [|e [|f key]]]]]; simpl in L; try lia;
    eexists; repeat split.
Qed.

Lemma pad_segments_four_slots_witness :
  (List.length (@nil string) <= MAX_SEGMENTS)%nat
  /\ exists slots,
      pad_segments [] example_connection = (Ok slots, example_connection)
      /\ List.length slots = MAX_SEGMENTS
      /\ firstn 0 slots = []
      /\ skipn 0 slots = [""; ""; ""; ""].
Proof.
  split.
  - unfold MAX_SEGMENTS. simpl. lia.
  - apply (pad_segments_four_slots [] example_connection).
    unfold MAX_SEGMENTS. simpl. lia.
Defined.

(** X2. Two keys of 1 to 4 segments, neither ending in an empty segment,
    that [pad_segments] pads to the same slots are the same key. *)
Theorem pad_segments_injective (k1 k2 : list string) (c : connection) :
  valid_key k1 -> valid_key k2 ->
  last k1 "" <> "" -> last k2 "" <> "" ->
  fst (pad_segments k1 c) = fst (pad_segments k2 c) ->
  k1 = k2.
Proof.
  intros V1 V2 L1 L2 E.
  rewrite (pad_segments_encoded k1 V1), (pad_segments_encoded k2 V2) in E.
  simpl in E. injection E as E0 E1 E2 E3.
  key_shapes V1; key_shapes V2; unfold slot in *; simpl in *;
    subst; try reflexivity; congruence.
Qed.

Lemma pad_segments_injective_witness :
  valid_key ["a"; ""; "b"] /\ valid_key ["a"; ""; "b"]
  /\ last ["a"; ""; "b"] "" <> "" /\ last ["a"; ""; "b"] "" <> ""
  /\ fst (pad_segments ["a"; ""; "b"] get_db_connection)
     = fst (pad_segments ["a"; ""; "b"] get_db_connection)
  /\ ["a"; ""; "b"] = ["a"; ""; "b"].
Proof.
  assert (V : valid_key ["a"; ""; "b"])
    by (unfold valid_key, MAX_SEGMENTS; simpl; lia).
  assert (L : last ["a"; ""; "b"] "" <> "") by (simpl; discriminate).
  split; [exact V|]. split; [exact V|]. split; [exact L|]. split; [exact L|].
  split; [reflexivity|].
  apply (pad_segments_injective ["a"; ""; "b"] ["a"; ""; "b"]
           get_db_connection V V L L).
  reflexivity.
Defined.

(** ** Rejected keys *)

(** X3. On a key that is empty or longer than 4 segments, every handler
    raises 400 before touching the connection.  The point handlers say "Key
    is required" for the empty key and "Key cannot have more than 4 segments"
    for a long one; the range handlers say "Prefix must have between 1 and 4
    segments" for both. *)
Theorem rejected_key_details
    (request : Request) (key : list string) (c : connection) :
  invalid_key key ->
  save_chunk request key c
  = (Raise (HTTPException status.HTTP_400_BAD_REQUEST (point_detail key)), c)
  /\ load_chunk key c
     = (Raise (HTTPException status.HTTP_400_BAD_REQUEST (point_detail key)), c)
  /\ remove_chunk key c
     = (Raise (HTTPException status.HTTP_400_BAD_REQUEST (point_detail key)), c)
  /\ load_range key c
     = (Raise (HTTPException status.HTTP_400_BAD_REQUEST
                 "Prefix must have between 1 and 4 segments"), c)
  /\ remove_range key c
     = (Raise (HTTPException status.HTTP_400_BAD_REQUEST
                 "Prefix must have between 1 and 4 segments"), c).
Proof.
  intros I.
  destruct (too_long_shape key I) as [->|(a & b & d & e & f & rest & ->)];
    repeat split.
Qed.

Lemma rejected_key_details_witness :
  invalid_key ["a"; "b"; "c"; "d"; "e"]
  /\ save_chunk (mkRequest [x01]) ["a"; "b"; "c"; "d"; "e"] example_connection
     = (Raise (HTTPException status.HTTP_400_BAD_REQUEST
                 "Key cannot have more than 4 segments"), example_connection)
  /\ load_chunk [] example_connection
     = (Raise (HTTPException status.HTTP_400_BAD_REQUEST "Key is required"),
        example_connection).
Proof.
  assert (I5 : invalid_key ["a"; "b"; "c"; "d"; "e"])
    by (right; unfold MAX_SEGMENTS; simpl; lia).
  assert (I0 : invalid_key []) by (left; reflexivity).
  split; [exact I5|]. split.
  - exact (proj1 (rejected_key_details (mkRequest [x01])
                    ["a"; "b"; "c"; "d"; "e"] example_connection I5)).
  - exact (proj1 (proj2 (rejected_key_details (mkRequest [x01]) []
                           example_connection I0))).
Defined.

(** X4. The handlers end in one of a few ways only, whatever the key and the
    connection.  [save_chunk], [remove_chunk] and [remove_range] answer
    [{"status": "ok"}] on a key of 1 to 4 segments and raise 400 otherwise;
    [load_range] answers a list or raises 400 likewise; [load_chunk] answers
    an octet-stream response, raises 400 on a rejected key, or raises 404
    "Item not found" on an accepted one.  No sqlite3 error is raised: the
    generated statements always name existing columns and bind as many
    parameters as they have placeholders. *)
Theorem handler_outcomes
    (request : Request) (key : list string) (c : connection) :
  match fst (save_chunk request key c) with
  | Ok r => r = status_ok /\ valid_key key
  | Raise e => exists d, e = HTTPException status.HTTP_400_BAD_REQUEST d
                         /\ invalid_key key
  end
  /\ match fst (load_chunk key c) with
     | Ok r => media_type r = "application/octet-stream" /\ valid_key key
     | Raise e =>
         (exists d, e = HTTPException status.HTTP_400_BAD_REQUEST d
                    /\ invalid_key key)
         \/ (e = HTTPException status.HTTP_404_NOT_FOUND "Item not found"
             /\ valid_key key)
     end
  /\ match fst (remove_chunk key c) with
     | Ok r => r = status_ok /\ valid_key key
     | Raise e => exists d, e = HTTPException status.HTTP_400_BAD_REQUEST d
                            /\ invalid_key key
     end
  /\ match fst (load_range key c) with
     | Ok items => valid_key key
     | Raise e => exists d, e = HTTPException status.HTTP_400_BAD_REQUEST d
                            /\ invalid_key key
     end
  /\ match fst (remove_range key c) with
     | Ok r => r = status_ok /\ valid_key key
     | Raise e => exists d, e = HTTPException status.HTTP_400_BAD_REQUEST d
                            /\ invalid_key key
     end.
Proof.
  destruct (invalid_or_valid key) as [I|V].
  - destruct (too_long_shape key I) as [->|(a & b & d & e & f & rest & ->)];
      simpl; unfold prefix_error;
      (split; [eauto|]; split; [left; eauto|]; split; [eauto|]; split; eauto).
  - rewrite (save_chunk_valid key V), (load_chunk_valid key V []),
      (remove_chunk_valid key V []), (load_range_valid key V),
      (remove_range_valid key V). simpl.
    split; [auto|]. split; [|auto].
    destruct (hd_error _); simpl; auto.
Qed.

(** X5. The two read handlers never change the connection, whatever the
    key: neither the rows it sees nor the committed rows. *)
Theorem reads_leave_connection (key : list string) (c : connection) :
  snd (load_chunk key c) = c /\ snd (load_range key c) = c.
Proof.
  destruct (invalid_or_valid key) as [I|V].
  - split; [apply (load_chunk_invalid key I) | apply (load_range_invalid key I)].
  - rewrite (load_chunk_valid key V []), (load_range_valid key V).
    split; reflexivity.
Qed.

(** ** What the point writes do to the table *)

Lemma row_eta (r : row) :
  mkRow (segment0 r) (segment1 r) (segment2 r) (segment3 r) (data r) = r.
Proof. destruct r; reflexivity. Qed.

Lemma same_key_false (r r' : row) :
  same_key r r' = false <-> primary_key r <> primary_key r'.
Proof.
  rewrite <- same_key_spec. destruct (same_key r r'); split; congruence.
Qed.

Lemma unique_key_row (t : table) (r r' : row) :
  primary_key_unique t -> In r t -> In r' t ->
  primary_key r = primary_key r' -> r = r'.
Proof.
  unfold primary_key_unique. induction t as [|x t IH]; simpl; [tauto|].
  intros U I I' E. inversion U as [|k ks N U']; subst.
  destruct I as [->|I], I' as [->|I'].
  - reflexivity.
  - elim N. rewrite E. apply in_map. exact I'.
  - elim N. rewrite <- E. apply in_map. exact I.
  - apply IH; assumption.
Qed.

Lemma hd_error_filter_none (p : row -> bool) (t : table) :
  hd_error (filter p t) = None <-> forall r, In r t -> p r = false.
Proof.
  induction t as [|x t IH]; simpl.
  - split; [intros _ r []|reflexivity].
  - destruct (p x) eqn:P; simpl.
    + split; [discriminate|]. intros H.
      rewrite (H x (or_introl eq_refl)) in P. discriminate.
    + rewrite IH. split.
      * intros H r [<-|I]; [exact P|exact (H r I)].
      * intros H r I. apply H. right. exact I.
Qed.

Lemma hd_error_filter_some (p : row -> bool) (t : table) (r : row) :
  hd_error (filter p t) = Some r -> In r t /\ p r = true.
Proof.
  intros H. apply filter_In.
  destruct (filter p t) as [|x l]; [discriminate|].
  injection H as ->. left. reflexivity.
Qed.

Lemma filter_all_true (p : row -> bool) (t : table) :
  (forall r, In r t -> p r = true) -> filter p t = t.
Proof.
  intros H. induction t as [|x t IH]; simpl; [reflexivity|].
  rewrite (H x (or_introl eq_refl)). f_equal.
  apply IH. intros r I. apply H. right. exact I.
Qed.

Section Upsert.

Variable new : row.

Lemma upsert_new_in (t : table) : In new (insert_on_conflict_update new t).
Proof.
  induction t as [|r t IH]; simpl; [auto|].
  destruct (same_key r new) eqn:E; simpl; [left|right; exact IH].
  apply same_key_spec in E. unfold primary_key in E.
  injection E as -> -> -> ->. apply row_eta.
Qed.

Lemma upsert_rows (t : table) (r : row) :
  primary_key_unique t ->
  In r (insert_on_conflict_update new t)
  <-> r = new \/ (In r t /\ primary_key r <> primary_key new).
Proof.
  intros U. split.
  - intros I. destruct (same_key r new) eqn:E.
    + left. apply same_key_spec in E.
      apply (unique_key_row (insert_on_conflict_update new t));
        auto using upsert_unique, upsert_new_in.
    + right. split; [|apply same_key_false; exact E].
      apply (upsert_other_rows new t r E). exact I.
  - intros [->|[I N]]; [apply upsert_new_in|].
    apply upsert_other_rows; [apply same_key_false; exact N | exact I].
Qed.

Lemma upsert_twice (t : table) :
  insert_on_conflict_update new (insert_on_conflict_update new t)
  = insert_on_conflict_update new t.
Proof.
  induction t as [|r t IH]; simpl.
  - rewrite same_key_refl, row_eta. reflexivity.
  - destruct (same_key r new) eqn:E; simpl.
    + unfold same_key in *. simpl. rewrite E. reflexivity.
    + rewrite E, IH. reflexivity.
Qed.

Lemma upsert_filter_other (probe : row) (t : table) :
  same_key new probe = false ->
  filter (fun r => same_key r probe) (insert_on_conflict_update new t)
  = filter (fun r => same_key r probe) t.
Proof.
  intros D. induction t as [|r t IH]; simpl.
  - rewrite D. reflexivity.
  - destruct (same_key r new) eqn:E; simpl.
    + assert (F : same_key r probe = false).
      { apply same_key_false. apply same_key_spec in E.
        apply same_key_false in D. congruence. }
      unfold same_key in *. simpl. rewrite F. reflexivity.
    + rewrite IH. reflexivity.
Qed.

End Upsert.

(** X6. On a table with at most one row per key, [save_chunk] of payload
    [v] at a valid key [k] leaves exactly the row for [k] with data [v]
    together with the former rows under other keys; the change is committed;
    the table keeps its size when [k] was present and grows by one row when
    it was absent. *)
Theorem save_chunk_effect (k : list string) (v : list byte) (c : connection) :
  valid_key k ->
  primary_key_unique (current c) ->
  exists c',
    save_chunk (mkRequest v) k c = (Ok status_ok, c')
    /\ (forall r, In r (current c')
                  <-> r = encoded_row k v
                      \/ (In r (current c) /\ primary_key r <> encoded_key k))
    /\ committed c' = current c'
    /\ (In (encoded_key k) (map primary_key (current c)) ->
        List.length (current c') = List.length (current c))
    /\ (~ In (encoded_key k) (map primary_key (current c)) ->
        List.length (current c') = S (List.length (current c))).
Proof.
  intros V U. eexists. rewrite (save_chunk_valid k V).
  split; [reflexivity|]. simpl. split; [|split; [reflexivity|split]].
  - intros r. apply (upsert_rows (encoded_row k v) (current c) r U).
  - intros I.
    rewrite <- (length_map primary_key), <- (length_map primary_key (current c)).
    f_equal. apply upsert_keys_present. exact I.
  - intros N.
    rewrite <- (length_map primary_key), <- (length_map primary_key (current c)).
    rewrite upsert_keys_absent by exact N.
    rewrite length_app. simpl. lia.
Qed.

Lemma save_chunk_effect_witness :
  valid_key ["a"; "b"]
  /\ primary_key_unique (current example_connection)
  /\ exists c',
      save_chunk (mkRequest [x09]) ["a"; "b"] example_connection
      = (Ok status_ok, c')
      /\ current c'
         = [mkRow "a" "b" "" "" [x09]; mkRow "a" "c" "" "" [x02];
            mkRow "x" "" "" "" [x03]]
      /\ committed c' = current c'.
Proof.
  assert (V : valid_key ["a"; "b"])
    by (unfold valid_key, MAX_SEGMENTS; simpl; lia).
  assert (U : primary_key_unique (current example_connection)).
  { unfold primary_key_unique. simpl.
    repeat constructor; simpl; intuition discriminate. }
  split; [exact V|]. split; [exact U|].
  destruct (save_chunk_effect ["a"; "b"] [x09] example_connection V U)
    as (c' & S & _ & C & _).
  exists c'. split; [exact S|]. split; [|exact C].
  injection S as <-. reflexivity.
Defined.

(** X7. [save_chunk] at a valid key leaves the answer of [load_chunk] at
    every valid key with other slots as it was. *)
Theorem save_chunk_frame
    (k1 k2 : list string) (v : list byte) (c : connection) :
  valid_key k1 -> valid_key k2 ->
  encoded_key k1 <> encoded_key k2 ->
  exists c',
    save_chunk (mkRequest v) k2 c = (Ok status_ok, c')
    /\ load_chunk k1 c' = (fst (load_chunk k1 c), c').
Proof.
  intros V1 V2 D. eexists. rewrite (save_chunk_valid k2 V2).
  split; [reflexivity|].
  rewrite !(load_chunk_valid k1 V1 []). simpl.
  rewrite upsert_filter_other; [reflexivity|].
  apply same_key_false. rewrite !encoded_row_key. congruence.
Qed.

Lemma save_chunk_frame_witness :
  valid_key ["x"] /\ valid_key ["a"; "b"]
  /\ encoded_key ["x"] <> encoded_key ["a"; "b"]
  /\ exists c',
      save_chunk (mkRequest [x09]) ["a"; "b"] example_connection
      = (Ok status_ok, c')
      /\ load_chunk ["x"] c'
         = (Ok (mkResponse [x03] "application/octet-stream"), c').
Proof.
  assert (V1 : valid_key ["x"]) by (unfold valid_key, MAX_SEGMENTS; simpl; lia).
  assert (V2 : valid_key ["a"; "b"])
    by (unfold valid_key, MAX_SEGMENTS; simpl; lia).
  assert (D : encoded_key ["x"] <> encoded_key ["a"; "b"]) by discriminate.
  split; [exact V1|]. split; [exact V2|]. split; [exact D|].
  exact (save_chunk_frame ["x"] ["a"; "b"] [x09] example_connection V1 V2 D).
Defined.

(** X8. Writing the same payload at the same valid key a second time
    changes nothing: the connection after the second [save_chunk] is the one
    after the first. *)
Theorem save_chunk_twice (k : list string) (v : list byte) (c : connection) :
  valid_key k ->
  exists c',
    save_chunk (mkRequest v) k c = (Ok status_ok, c')
    /\ save_chunk (mkRequest v) k c' = (Ok status_ok, c').
Proof.
  intros V. eexists. rewrite !(save_chunk_valid k V).
  split; [reflexivity|]. simpl. rewrite upsert_twice. reflexivity.
Qed.

Lemma save_chunk_twice_witness :
  valid_key ["doc1"; "snap"]
  /\ exists c',
      save_chunk (mkRequest [x01; x02]) ["doc1"; "snap"] example_connection
      = (Ok status_ok, c')
      /\ save_chunk (mkRequest [x01; x02]) ["doc1"; "snap"] c'
         = (Ok status_ok, c').
Proof.
  split.
  - unfold valid_key, MAX_SEGMENTS. simpl. lia.
  - apply (save_chunk_twice ["doc1"; "snap"] [x01; x02] example_connection).
    unfold valid_key, MAX_SEGMENTS. simpl. lia.
Defined.

(** X9. [remove_chunk] at a valid key [k] removes exactly the rows stored
    under the slots of [k]: the rows left are the former rows under other
    slots, the change is committed, [load_chunk] at every valid key with
    other slots answers as before, and a table with no row under [k] is left
    as it was. *)
Theorem remove_chunk_effect (k : list string) (c : connection) :
  valid_key k ->
  exists c',
    remove_chunk k c = (Ok status_ok, c')
    /\ (forall r, In r (current c')
                  <-> In r (current c) /\ primary_key r <> encoded_key k)
    /\ committed c' = current c'
    /\ (forall k1, valid_key k1 -> encoded_key k1 <> encoded_key k ->
                   load_chunk k1 c' = (fst (load_chunk k1 c), c'))
    /\ (~ In (encoded_key k) (map primary_key (current c)) ->
        current c' = current c).
Proof.
  intros V. eexists. rewrite (remove_chunk_valid k V []).
  split; [reflexivity|]. simpl.
  assert (N : forall r, negb (same_key r (encoded_row k [])) = true
                        <-> primary_key r <> encoded_key k).
  { intros r. rewrite negb_true_iff. apply same_key_false. }
  split; [|split; [reflexivity|split]].
  - intros r. rewrite filter_In, N. tauto.
  - intros k1 V1 D. rewrite !(load_chunk_valid k1 V1 []). simpl.
    rewrite filter_filter_implied; [reflexivity|].
    intros r E. apply N. apply same_key_spec in E.
    rewrite E, encoded_row_key. exact D.
  - intros A. apply filter_all_true. intros r I. apply N.
    intros E. apply A. rewrite <- E. apply in_map. exact I.
Qed.

Lemma remove_chunk_effect_witness :
  valid_key ["a"; "b"]
  /\ exists c',
      remove_chunk ["a"; "b"] example_connection = (Ok status_ok, c')
      /\ current c' = [mkRow "a" "c" "" "" [x02]; mkRow "x" "" "" "" [x03]]
      /\ committed c' = current c'.
Proof.
  assert (V : valid_key ["a"; "b"])
    by (unfold valid_key, MAX_SEGMENTS; simpl; lia).
  split; [exact V|].
  destruct (remove_chunk_effect ["a"; "b"] example_connection V)
    as (c' & R & _ & C & _).
  exists c'. split; [exact R|]. split; [|exact C].
  injection R as <-. reflexivity.
Defined.

(** ** What the point read finds *)

(** X10. For a valid key [k], [load_chunk] raises 404 exactly when no row
    of the table has the slots of [k]; when it answers, the content is the
    data of a row of the table that has those slots. *)
Theorem load_chunk_not_found_iff (k : list string) (c : connection) :
  valid_key k ->
  (http_status (load_chunk k c) = Some status.HTTP_404_NOT_FOUND
   <-> ~ In (encoded_key k) (map primary_key (current c)))
  /\ (forall response,
        fst (load_chunk k c) = Ok response ->
        exists r, In r (current c) /\ primary_key r = encoded_key k
                  /\ content response = data r).
Proof.
  intros V. rewrite (load_chunk_valid k V []).
  destruct (hd_error _) as [r|] eqn:H; unfold http_status; simpl.
  - apply hd_error_filter_some in H. destruct H as [I E].
    apply same_key_spec in E. rewrite encoded_row_key in E.
    split.
    + split; [discriminate|]. intros A. elim A.
      rewrite <- E. apply in_map. exact I.
    + intros response R. injection R as <-. exists r. auto.
  - split; [|discriminate].
    split; [|reflexivity]. intros _ A.
    apply in_map_iff in A. destruct A as (r & E & I).
    pose proof (proj1 (hd_error_filter_none _ _) H r I) as F.
    apply same_key_false in F. rewrite encoded_row_key in F. contradiction.
Qed.

Lemma load_chunk_not_found_iff_witness :
  valid_key ["a"]
  /\ http_status (load_chunk ["a"] example_connection)
     = Some status.HTTP_404_NOT_FOUND.
Proof.
  assert (V : valid_key ["a"]) by (unfold valid_key, MAX_SEGMENTS; simpl; lia).
  split; [exact V|].
  apply (proj1 (load_chunk_not_found_iff ["a"] example_connection V)).
  simpl. intuition discriminate.
Defined.

(** X11. On a table with at most one row per key, [load_chunk] at a valid
    key answers the data of the row that has the key's slots, wherever that
    row stands in the table. *)
Theorem load_chunk_finds_row (k : list string) (r : row) (c : connection) :
  valid_key k ->
  primary_key_unique (current c) ->
  In r (current c) ->
  primary_key r = encoded_key k ->
  load_chunk k c = (Ok (mkResponse (data r) "application/octet-stream"), c).
Proof.
  intros V U I E. rewrite (load_chunk_valid k V []).
  destruct (hd_error _) as [r'|] eqn:H.
  - apply hd_error_filter_some in H. destruct H as [I' E'].
    apply same_key_spec in E'. rewrite encoded_row_key in E'.
    rewrite (unique_key_row (current c) r r' U I I'); [reflexivity|congruence].
  - pose proof (proj1 (hd_error_filter_none _ _) H r I) as F.
    apply same_key_false in F. rewrite encoded_row_key in F. contradiction.
Qed.

Lemma load_chunk_finds_row_witness :
  valid_key ["x"]
  /\ primary_key_unique (current example_connection)
  /\ In (mkRow "x" "" "" "" [x03]) (current example_connection)
  /\ primary_key (mkRow "x" "" "" "" [x03]) = encoded_key ["x"]
  /\ load_chunk ["x"] example_connection
     = (Ok (mkResponse [x03] "application/octet-stream"), example_connection).
Proof.
  assert (V : valid_key ["x"]) by (unfold valid_key, MAX_SEGMENTS; simpl; lia).
  assert (U : primary_key_unique (current example_connection)).
  { unfold primary_key_unique. simpl.
    repeat constructor; simpl; intuition discriminate. }
  assert (I : In (mkRow "x" "" "" "" [x03]) (current example_connection))
    by (simpl; auto).
  split; [exact V|]. split; [exact U|]. split; [exact I|].
  split; [reflexivity|].
  exact (load_chunk_finds_row ["x"] (mkRow "x" "" "" "" [x03])
           example_connection V U I eq_refl).
Defined.

(** ** Invariants of the connection *)

Lemma filter_keeps_unique (p : row -> bool) (t : table) :
  primary_key_unique t -> primary_key_unique (filter p t).
Proof.
  unfold primary_key_unique. induction t as [|r t IH]; simpl; [auto|].
  intros U. inversion U as [|k ks N U']; subst.
  destruct (p r); simpl; [|auto].
  constructor; [|auto]. intros I. apply N.
  apply in_map_iff in I. destruct I as (x & E & I).
  apply filter_In in I. rewrite <- E. apply in_map. tauto.
Qed.

(** X12. Every handler, on every key, keeps the table at one row per key:
    if no two rows share their four slots before the call, none do after
    it, whether the call answers or raises. *)
Theorem handlers_keep_primary_key_unique
    (request : Request) (key : list string) (c : connection) :
  primary_key_unique (current c) ->
  primary_key_unique (current (snd (save_chunk request key c)))
  /\ primary_key_unique (current (snd (load_chunk key c)))
  /\ primary_key_unique (current (snd (remove_chunk key c)))
  /\ primary_key_unique (current (snd (load_range key c)))
  /\ primary_key_unique (current (snd (remove_range key c))).
Proof.
  intros U. destruct (invalid_or_valid key) as [I|V].
  - rewrite (proj2 (save_chunk_invalid key I request c)),
      (proj2 (load_chunk_invalid key I c)),
      (proj2 (remove_chunk_invalid key I c)),
      (proj2 (load_range_invalid key I c)),
      (proj2 (remove_range_invalid key I c)).
    repeat split; exact U.
  - rewrite (save_chunk_valid key V), (load_chunk_valid key V []),
      (remove_chunk_valid key V []), (load_range_valid key V),
      (remove_range_valid key V). simpl.
    repeat split; auto using upsert_unique, filter_keeps_unique.
Qed.

Lemma handlers_keep_primary_key_unique_witness :
  primary_key_unique (current example_connection)
  /\ primary_key_unique
       (current (snd (save_chunk (mkRequest [x09]) ["a"; "b"]
                        example_connection)))
  /\ primary_key_unique
       (current (snd (remove_range ["a"] example_connection))).
Proof.
  assert (U : primary_key_unique (current example_connection)).
  { unfold primary_key_unique. simpl.
    repeat constructor; simpl; intuition discriminate. }
  split; [exact U|]. split.
  - exact (proj1 (handlers_keep_primary_key_unique (mkRequest [x09])
                    ["a"; "b"] example_connection U)).
  - exact (proj2 (proj2 (proj2 (proj2
             (handlers_keep_primary_key_unique (mkRequest [x09]) ["a"]
                example_connection U))))).
Defined.

(** X13. On a connection with nothing pending, every handler call, on every
    key, answering or raising, ends with nothing pending: what the connection
    sees afterwards is what is committed. *)
Theorem handlers_leave_nothing_pending
    (request : Request) (key : list string) (c : connection) :
  no_pending_changes c ->
  no_pending_changes (snd (save_chunk request key c))
  /\ no_pending_changes (snd (load_chunk key c))
  /\ no_pending_changes (snd (remove_chunk key c))
  /\ no_pending_changes (snd (load_range key c))
  /\ no_pending_changes (snd (remove_range key c)).
Proof.
  intros P. destruct (invalid_or_valid key) as [I|V].
  - rewrite (proj2 (save_chunk_invalid key I request c)),
      (proj2 (load_chunk_invalid key I c)),
      (proj2 (remove_chunk_invalid key I c)),
      (proj2 (load_range_invalid key I c)),
      (proj2 (remove_range_invalid key I c)).
    repeat split; exact P.
  - rewrite (save_chunk_valid key V), (load_chunk_valid key V []),
      (remove_chunk_valid key V []), (load_range_valid key V),
      (remove_range_valid key V). simpl.
    split; [reflexivity|]. split; [exact P|]. split; [reflexivity|].
    split; [exact P|reflexivity].
Qed.

Lemma handlers_leave_nothing_pending_witness :
  no_pending_changes example_connection
  /\ no_pending_changes
       (snd (save_chunk (mkRequest [x09]) ["a"; "b"] example_connection))
  /\ no_pending_changes (snd (load_chunk [] example_connection)).
Proof.
  assert (P : no_pending_changes example_connection) by reflexivity.
  split; [exact P|]. split.
  - exact (proj1 (handlers_leave_nothing_pending (mkRequest [x09])
                    ["a"; "b"] example_connection P)).
  - exact (proj1 (proj2 (handlers_leave_nothing_pending (mkRequest [x09])
                           [] example_connection P))).
Defined.

(** ** Range and point operations together *)

Lemma encoded_key_nth (k : list string) (i : nat) :
  valid_key k -> (i < List.length k)%nat ->
  nth_error (encoded_key k) i = nth_error k i.
Proof.
  intros V L. key_shapes V; simpl in L;
    do 4 (destruct i as [|i]; [reflexivity || lia|]); lia.
Qed.

Lemma encoded_key_matches_firstn (k : list string) (n : nat) :
  valid_key k -> matches_prefix (encoded_key k) (firstn n k).
Proof.
  intros V i L. rewrite length_firstn in L.
  rewrite nth_error_firstn.
  destruct (Nat.ltb_spec i n) as [_|G]; [|lia].
  apply encoded_key_nth; [exact V|lia].
Qed.

Lemma valid_key_firstn (k : list string) (n : nat) :
  valid_key k -> (1 <= n)%nat -> valid_key (firstn n k).
Proof.
  unfold valid_key. intros V L. rewrite length_firstn. lia.
Qed.

Lemma original_key_encoded (k : list string) (d : list byte) :
  valid_key k -> original_key (encoded_row k d) = non_empty_segments k.
Proof.
  intros V. rewrite original_key_filter. unfold non_empty_segments.
  key_shapes V; unfold encoded_row, primary_key, slot; simpl;
    repeat match goal with |- context [String.eqb ?x ""] =>
             destruct (String.eqb x "") end; reflexivity.
Qed.

Lemma non_empty_segments_id (k : list string) :
  ~ In "" k -> non_empty_segments k = k.
Proof.
  unfold non_empty_segments. induction k as [|s k IH]; simpl; [reflexivity|].
  intros N. destruct (String.eqb_spec s "") as [->|D]; simpl.
  - elim N. left. reflexivity.
  - f_equal. apply IH. tauto.
Qed.

Lemma matches_prefix_app (slots p q : list string) :
  matches_prefix slots (p ++ q)%list -> matches_prefix slots p.
Proof.
  intros H i L. rewrite (H i) by (rewrite length_app; lia).
  apply nth_error_app1. exact L.
Qed.

(** X14. After [save_chunk] of [v] at a valid key [k], [load_range] on any
    leading part of [k] (its first [n] segments, [1 <= n]) reports the entry:
    the non-empty segments of [k] as key, and the base64 text of [v] as
    data. *)
Theorem saved_chunk_is_in_range
    (k : list string) (n : nat) (v : list byte) (c : connection) :
  valid_key k -> (1 <= n)%nat ->
  exists c' items,
    save_chunk (mkRequest v) k c = (Ok status_ok, c')
    /\ load_range (firstn n k) c' = (Ok items, c')
    /\ In (mkItem (non_empty_segments k) (b64encode v)) items.
Proof.
  intros V L. do 2 eexists. rewrite (save_chunk_valid k V).
  split; [reflexivity|].
  rewrite (load_range_valid _ (valid_key_firstn k n V L)).
  split; [reflexivity|]. simpl.
  assert (E : mkItem (non_empty_segments k) (b64encode v)
              = range_result (encoded_row k v)).
  { unfold range_result. simpl. rewrite (original_key_encoded k v V).
    reflexivity. }
  rewrite E. apply (in_map range_result _ (encoded_row k v)).
  apply selected_spec. split; [apply upsert_new_in|].
  rewrite encoded_row_key. apply encoded_key_matches_firstn. exact V.
Qed.

Lemma saved_chunk_is_in_range_witness :
  valid_key ["doc1"; "snap"] /\ (1 <= 1)%nat
  /\ exists c' items,
      save_chunk (mkRequest [x01; x02]) ["doc1"; "snap"] get_db_connection
      = (Ok status_ok, c')
      /\ load_range ["doc1"] c' = (Ok items, c')
      /\ In (mkItem ["doc1"; "snap"] "AQI=") items.
Proof.
  assert (V : valid_key ["doc1"; "snap"])
    by (unfold valid_key, MAX_SEGMENTS; simpl; lia).
  split; [exact V|]. split; [lia|].
  exact (saved_chunk_is_in_range ["doc1"; "snap"] 1 [x01; x02]
           get_db_connection V (le_n 1)).
Defined.

(** X15. A valid key with no empty segment comes back as it was written:
    after [save_chunk] at [k], [load_range] of [k] reports an entry whose key
    is exactly [k]. *)
Theorem key_without_empty_segment_round_trips
    (k : list string) (v : list byte) (c : connection) :
  valid_key k -> ~ In "" k ->
  exists c' items,
    save_chunk (mkRequest v) k c = (Ok status_ok, c')
    /\ load_range k c' = (Ok items, c')
    /\ In (mkItem k (b64encode v)) items.
Proof.
  intros V N. do 2 eexists. rewrite (save_chunk_valid k V).
  split; [reflexivity|]. rewrite (load_range_valid k V).
  split; [reflexivity|]. simpl.
  assert (E : mkItem k (b64encode v) = range_result (encoded_row k v)).
  { unfold range_result. simpl.
    rewrite (original_key_encoded k v V), (non_empty_segments_id k N).
    reflexivity. }
  rewrite E. apply (in_map range_result _ (encoded_row k v)).
  apply selected_spec. split; [apply upsert_new_in|].
  rewrite encoded_row_key.
  rewrite <- (firstn_all k) at 2. apply encoded_key_matches_firstn. exact V.
Qed.

Lemma key_without_empty_segment_round_trips_witness :
  valid_key ["a"; "b"; "c"] /\ ~ In "" ["a"; "b"; "c"]
  /\ exists c' items,
      save_chunk (mkRequest []) ["a"; "b"; "c"] example_connection
      = (Ok status_ok, c')
      /\ load_range ["a"; "b"; "c"] c' = (Ok items, c')
      /\ In (mkItem ["a"; "b"; "c"] "") items.
Proof.
  assert (V : valid_key ["a"; "b"; "c"])
    by (unfold valid_key, MAX_SEGMENTS; simpl; lia).
  assert (N : ~ In "" ["a"; "b"; "c"]) by (simpl; intuition discriminate).
  split; [exact V|]. split; [exact N|].
  exact (key_without_empty_segment_round_trips ["a"; "b"; "c"] []
           example_connection V N).
Defined.

Lemma full_key_shape (key : list string) :
  List.length key = MAX_SEGMENTS ->
  exists a b d e, key = [a; b; d; e].
Proof.
  unfold MAX_SEGMENTS.
  destruct key as [|a [|b [|d [|e [|f key]]]]]; simpl; intros L;
    try discriminate; eauto.
Qed.

Lemma full_key_valid (key : list string) :
  List.length key = MAX_SEGMENTS -> valid_key key.
Proof. unfold valid_key, MAX_SEGMENTS. lia. Qed.

Lemma selected_full_key (key : list string) (t : table) :
  List.length key = MAX_SEGMENTS ->
  selected key t = filter (fun r => same_key r (encoded_row key [])) t.
Proof.
  intros L. destruct (full_key_shape key L) as (a & b & d & e & ->).
  unfold selected. apply filter_ext. intros r. apply point_where.
Qed.

Lemma same_key_rows_unique (probe : row) (t : table) (r : row) (l : list row) :
  primary_key_unique t ->
  filter (fun x => same_key x probe) t = r :: l -> l = [].
Proof.
  intros U E. pose proof (filter_keeps_unique (fun x => same_key x probe) t U) as F.
  rewrite E in F. unfold primary_key_unique in F. simpl in F.
  inversion F as [|k ks N _]; subst.
  destruct l as [|r' l]; [reflexivity|]. elim N.
  assert (I : In r (filter (fun x => same_key x probe) t))
    by (rewrite E; simpl; auto).
  assert (I' : In r' (filter (fun x => same_key x probe) t))
    by (rewrite E; simpl; auto).
  apply filter_In in I, I'. destruct I as [_ K], I' as [_ K'].
  apply same_key_spec in K, K'. simpl. left. congruence.
Qed.

(** X16. With a key of exactly 4 segments the range read and the point read
    look at the same rows: [load_range] answers the empty list exactly when
    [load_chunk] raises 404, and when [load_chunk] answers, the first entry of
    [load_range] carries the non-empty segments of the key and the base64 text
    of that content; on a table with at most one row per key it is the only
    entry. *)
Theorem full_key_range_is_point (key : list string) (c : connection) :
  List.length key = MAX_SEGMENTS ->
  (http_status (load_chunk key c) = Some status.HTTP_404_NOT_FOUND
   <-> load_range key c = (Ok [], c))
  /\ (forall response,
        fst (load_chunk key c) = Ok response ->
        exists items,
          load_range key c
          = (Ok (mkItem (non_empty_segments key) (b64encode (content response))
                 :: items), c)
          /\ (primary_key_unique (current c) -> items = [])).
Proof.
  intros L. pose proof (full_key_valid key L) as V.
  rewrite (load_chunk_valid key V []), (load_range_valid key V),
    (selected_full_key key (current c) L).
  destruct (filter _ (current c)) as [|r l] eqn:F; unfold http_status; simpl.
  - split; [tauto|]. intros response R. discriminate R.
  - split; [split; discriminate|].
    intros response R. injection R as <-. simpl.
    exists (map range_result l). split.
    + do 3 f_equal. unfold range_result. f_equal.
      assert (I : In r (filter (fun r => same_key r (encoded_row key []))
                          (current c))) by (rewrite F; simpl; auto).
      apply filter_In in I. destruct I as [_ K]. apply same_key_spec in K.
      rewrite original_key_filter, K, encoded_row_key.
      destruct (full_key_shape key L) as (a & b & d & e & ->). reflexivity.
    + intros U. rewrite (same_key_rows_unique _ _ _ _ U F). reflexivity.
Qed.

Lemma full_key_range_is_point_witness :
  List.length ["a"; "b"; ""; ""] = MAX_SEGMENTS
  /\ exists items,
      load_range ["a"; "b"; ""; ""] example_connection
      = (Ok (mkItem ["a"; "b"] "AQ==" :: items), example_connection).
Proof.
  split; [reflexivity|].
  destruct (proj2 (full_key_range_is_point ["a"; "b"; ""; ""]
                     example_connection eq_refl)
              (mkResponse [x01] "application/octet-stream") eq_refl)
    as (items & E & _).
  exists items. exact E.
Defined.

(** X17. With a key of exactly 4 segments, [remove_range] does what
    [remove_chunk] does: the same answer and the same connection. *)
Theorem full_key_remove_range_is_remove_chunk
    (key : list string) (c : connection) :
  List.length key = MAX_SEGMENTS ->
  remove_range key c = remove_chunk key c.
Proof.
  intros L. destruct (full_key_shape key L) as (a & b & d & e & ->).
  reflexivity.
Qed.

Lemma full_key_remove_range_is_remove_chunk_witness :
  List.length ["a"; "b"; ""; ""] = MAX_SEGMENTS
  /\ remove_range ["a"; "b"; ""; ""] example_connection
     = remove_chunk ["a"; "b"; ""; ""] example_connection.
Proof.
  split; [reflexivity|].
  exact (full_key_remove_range_is_remove_chunk ["a"; "b"; ""; ""]
           example_connection eq_refl).
Defined.

(** X18. A longer prefix narrows the result: for a valid prefix [p ++ q]
    with [p] not empty, every entry [load_range] reports for [p ++ q] is
    among those it reports for [p], and there are no more of them. *)
Theorem longer_prefix_narrows (p q : list string) (c : connection) :
  valid_key (p ++ q)%list -> p <> [] ->
  exists items_p items_pq,
    load_range p c = (Ok items_p, c)
    /\ load_range (p ++ q)%list c = (Ok items_pq, c)
    /\ incl items_pq items_p
    /\ (List.length items_pq <= List.length items_p)%nat.
Proof.
  intros V N.
  assert (Vp : valid_key p).
  { unfold valid_key in *. rewrite length_app in V.
    destruct p; [contradiction|]. simpl in *. lia. }
  do 2 eexists. rewrite (load_range_valid p Vp), (load_range_valid _ V).
  split; [reflexivity|]. split; [reflexivity|].
  assert (E : selected (p ++ q)%list (current c)
              = filter (where_holds (seq 0 (List.length (p ++ q)%list))
                          (p ++ q)%list)
                  (selected p (current c))).
  { unfold selected. symmetry. apply filter_filter_implied.
    intros r H. apply where_holds_matches_prefix.
    apply where_holds_matches_prefix in H.
    exact (matches_prefix_app _ p q H). }
  rewrite E. split.
  - apply incl_map, incl_filter.
  - rewrite !length_map. apply filter_length_le.
Qed.

Lemma longer_prefix_narrows_witness :
  valid_key (["a"] ++ ["b"])%list /\ ["a"] <> []
  /\ exists items_p items_pq,
      load_range ["a"] example_connection = (Ok items_p, example_connection)
      /\ load_range ["a"; "b"] example_connection
         = (Ok items_pq, example_connection)
      /\ incl items_pq items_p
      /\ (List.length items_pq <= List.length items_p)%nat.
Proof.
  assert (V : valid_key (["a"] ++ ["b"])%list)
    by (unfold valid_key, MAX_SEGMENTS; simpl; lia).
  assert (N : ["a"] <> []) by discriminate.
  split; [exact V|]. split; [exact N|].
  exact (longer_prefix_narrows ["a"] ["b"] example_connection V N).
Defined.

(** X19. After [remove_range] of a valid prefix [p], [load_chunk] raises
    404 at every valid key that extends [p]. *)
Theorem range_delete_then_point_read (p q : list string) (c : connection) :
  valid_key p -> valid_key (p ++ q)%list ->
  exists c',
    remove_range p c = (Ok status_ok, c')
    /\ load_chunk (p ++ q)%list c'
       = (Raise (HTTPException status.HTTP_404_NOT_FOUND "Item not found"), c').
Proof.
  intros Vp V. eexists. rewrite (remove_range_valid p Vp).
  split; [reflexivity|]. rewrite (load_chunk_valid _ V []). simpl.
  replace (hd_error _) with (@None row); [reflexivity|].
  symmetry. apply hd_error_filter_none. intros r I.
  apply filter_In in I. destruct I as [_ W].
  apply same_key_false. intros E. rewrite encoded_row_key in E.
  rewrite negb_true_iff in W.
  assert (M : where_holds (seq 0 (List.length p)) p r = true);
    [|congruence].
  apply where_holds_matches_prefix. rewrite E.
  replace p with (firstn (List.length p) (p ++ q)%list) at 2.
  - apply encoded_key_matches_firstn. exact V.
  - rewrite firstn_app, Nat.sub_diag, firstn_all. simpl. apply app_nil_r.
Qed.

Lemma range_delete_then_point_read_witness :
  valid_key ["a"] /\ valid_key (["a"] ++ ["c"])%list
  /\ exists c',
      remove_range ["a"] example_connection = (Ok status_ok, c')
      /\ load_chunk ["a"; "c"] c'
         = (Raise (HTTPException status.HTTP_404_NOT_FOUND "Item not found"),
            c').
Proof.
  assert (Vp : valid_key ["a"]) by (unfold valid_key, MAX_SEGMENTS; simpl; lia).
  assert (V : valid_key (["a"] ++ ["c"])%list)
    by (unfold valid_key, MAX_SEGMENTS; simpl; lia).
  split; [exact Vp|]. split; [exact V|].
  exact (range_delete_then_point_read ["a"] ["c"] example_connection Vp V).
Defined.

(** ** The base64 text of a payload *)

Lemma bytes_ind3 (P : list byte -> Prop) :
  P [] -> (forall a, P [a]) -> (forall a b, P [a; b]) ->
  (forall a b c rest, P rest -> P (a :: b :: c :: rest)) ->
  forall s, P s.
Proof.
  intros H0 H1 H2 H3.
  fix IH 1. intros [|a [|b [|c rest]]];
    [exact H0 | apply H1 | apply H2 | apply H3; apply IH].
Qed.

Lemma forall_below (k : nat) (f : N -> bool) :
  forallb f (map N.of_nat (seq 0 k)) = true ->
  forall n, (n < N.of_nat k)%N -> f n = true.
Proof.
  intros H n L. rewrite forallb_forall in H. apply H.
  apply in_map_iff. exists (N.to_nat n). split; [apply N2Nat.id|].
  apply in_seq. lia.
Qed.

Lemma b64_char_high_low (u u' w w' : N) :
  (u < 4)%N -> (u' < 4)%N -> (w < 16)%N -> (w' < 16)%N ->
  b64_char (N.lor (N.shiftl u 4) w) = b64_char (N.lor (N.shiftl u' 4) w') ->
  u = u' /\ w = w'.
Proof.
  intros Lu Lu' Lw Lw' E.
  assert (C : forallb (fun u => forallb (fun u' => forallb (fun w => forallb
                (fun w' =>
                   implb (Ascii.eqb (b64_char (N.lor (N.shiftl u 4) w))
                            (b64_char (N.lor (N.shiftl u' 4) w')))
                     (N.eqb u u' && N.eqb w w'))
                (map N.of_nat (seq 0 16))) (map N.of_nat (seq 0 16)))
                (map N.of_nat (seq 0 4))) (map N.of_nat (seq 0 4)) = true)
    by (vm_compute; reflexivity).
  pose proof (forall_below 4 _ C u Lu) as C1. cbv beta in C1.
  pose proof (forall_below 4 _ C1 u' Lu') as C2. cbv beta in C2.
  pose proof (forall_below 16 _ C2 w Lw) as C3. cbv beta in C3.
  pose proof (forall_below 16 _ C3 w' Lw') as C4. cbv beta in C4.
  rewrite E, Ascii.eqb_refl in C4. simpl in C4.
  apply andb_true_iff in C4. destruct C4 as [A B].
  apply N.eqb_eq in A, B. auto.
Qed.

Lemma b64_char_low_high (u u' w w' : N) :
  (u < 16)%N -> (u' < 16)%N -> (w < 4)%N -> (w' < 4)%N ->
  b64_char (N.lor (N.shiftl u 2) w) = b64_char (N.lor (N.shiftl u' 2) w') ->
  u = u' /\ w = w'.
Proof.
  intros Lu Lu' Lw Lw' E.
  assert (C : forallb (fun u => forallb (fun u' => forallb (fun w => forallb
                (fun w' =>
                   implb (Ascii.eqb (b64_char (N.lor (N.shiftl u 2) w))
                            (b64_char (N.lor (N.shiftl u' 2) w')))
                     (N.eqb u u' && N.eqb w w'))
                (map N.of_nat (seq 0 4))) (map N.of_nat (seq 0 4)))
                (map N.of_nat (seq 0 16))) (map N.of_nat (seq 0 16)) = true)
    by (vm_compute; reflexivity).
  pose proof (forall_below 16 _ C u Lu) as C1. cbv beta in C1.
  pose proof (forall_below 16 _ C1 u' Lu') as C2. cbv beta in C2.
  pose proof (forall_below 4 _ C2 w Lw) as C3. cbv beta in C3.
  pose proof (forall_below 4 _ C3 w' Lw') as C4. cbv beta in C4.
  rewrite E, Ascii.eqb_refl in C4. simpl in C4.
  apply andb_true_iff in C4. destruct C4 as [A B].
  apply N.eqb_eq in A, B. auto.
Qed.

Lemma b64_char_injective (n m : N) :
  (n < 64)%N -> (m < 64)%N -> b64_char n = b64_char m -> n = m.
Proof.
  intros Ln Lm E.
  assert (C : forallb (fun n => forallb
                (fun m => implb (Ascii.eqb (b64_char n) (b64_char m))
                            (N.eqb n m))
                (map N.of_nat (seq 0 64))) (map N.of_nat (seq 0 64)) = true)
    by (vm_compute; reflexivity).
  pose proof (forall_below 64 _ C n Ln) as C1. cbv beta in C1.
  pose proof (forall_below 64 _ C1 m Lm) as C2. cbv beta in C2.
  rewrite E, Ascii.eqb_refl in C2. apply N.eqb_eq. exact C2.
Qed.

Lemma b64_char_not_pad (n : N) : (n < 64)%N -> b64_char n <> "="%char.
Proof.
  intros L E.
  assert (C : forallb (fun n => negb (Ascii.eqb (b64_char n) "="))
                (map N.of_nat (seq 0 64)) = true)
    by (vm_compute; reflexivity).
  pose proof (forall_below 64 _ C n L) as C1. cbv beta in C1.
  rewrite E, Ascii.eqb_refl in C1. discriminate.
Qed.

(** The parts of a byte the four characters of a block are made of. *)
Lemma byte_parts (x : byte) :
  (N.shiftr (Byte.to_N x) 2 < 64)%N /\ (N.land (Byte.to_N x) 3 < 4)%N
  /\ (N.shiftr (Byte.to_N x) 4 < 16)%N /\ (N.land (Byte.to_N x) 15 < 16)%N
  /\ (N.shiftr (Byte.to_N x) 6 < 4)%N /\ (N.land (Byte.to_N x) 63 < 64)%N
  /\ Byte.of_N (N.lor (N.shiftl (N.shiftr (Byte.to_N x) 2) 2)
                  (N.land (Byte.to_N x) 3)) = Some x
  /\ Byte.of_N (N.lor (N.shiftl (N.shiftr (Byte.to_N x) 4) 4)
                  (N.land (Byte.to_N x) 15)) = Some x
  /\ Byte.of_N (N.lor (N.shiftl (N.shiftr (Byte.to_N x) 6) 6)
                  (N.land (Byte.to_N x) 63)) = Some x.
Proof. destruct x; vm_compute; repeat split. Qed.

Lemma byte_from_2_6 (x x' : byte) :
  N.shiftr (Byte.to_N x) 2 = N.shiftr (Byte.to_N x') 2 ->
  N.land (Byte.to_N x) 3 = N.land (Byte.to_N x') 3 -> x = x'.
Proof.
  intros H L.
  pose proof (byte_parts x) as (_ & _ & _ & _ & _ & _ & P & _).
  pose proof (byte_parts x') as (_ & _ & _ & _ & _ & _ & P' & _).
  rewrite H, L in P. congruence.
Qed.

Lemma byte_from_4_4 (x x' : byte) :
  N.shiftr (Byte.to_N x) 4 = N.shiftr (Byte.to_N x') 4 ->
  N.land (Byte.to_N x) 15 = N.land (Byte.to_N x') 15 -> x = x'.
Proof.
  intros H L.
  pose proof (byte_parts x) as (_ & _ & _ & _ & _ & _ & _ & P & _).
  pose proof (byte_parts x') as (_ & _ & _ & _ & _ & _ & _ & P' & _).
  rewrite H, L in P. congruence.
Qed.

Lemma byte_from_6_2 (x x' : byte) :
  N.shiftr (Byte.to_N x) 6 = N.shiftr (Byte.to_N x') 6 ->
  N.land (Byte.to_N x) 63 = N.land (Byte.to_N x') 63 -> x = x'.
Proof.
  intros H L.
  pose proof (byte_parts x) as (_ & _ & _ & _ & _ & _ & _ & _ & P).
  pose proof (byte_parts x') as (_ & _ & _ & _ & _ & _ & _ & _ & P').
  rewrite H, L in P. congruence.
Qed.

Lemma sextet_low_high_bound (u w : N) :
  (u < 16)%N -> (w < 4)%N -> (N.lor (N.shiftl u 2) w < 64)%N.
Proof.
  intros Lu Lw.
  assert (C : forallb (fun u => forallb
                (fun w => N.ltb (N.lor (N.shiftl u 2) w) 64)
                (map N.of_nat (seq 0 4))) (map N.of_nat (seq 0 16)) = true)
    by (vm_compute; reflexivity).
  pose proof (forall_below 16 _ C u Lu) as C1. cbv beta in C1.
  pose proof (forall_below 4 _ C1 w Lw) as C2. cbv beta in C2.
  apply N.ltb_lt. exact C2.
Qed.

Section Blocks.

Variables a b c a' b' c' : byte.

Let x := Byte.to_N a.
Let y := Byte.to_N b.
Let z := Byte.to_N c.
Let x' := Byte.to_N a'.
Let y' := Byte.to_N b'.
Let z' := Byte.to_N c'.

Hypothesis first_char :
  b64_char (N.shiftr x 2) = b64_char (N.shiftr x' 2).

Lemma block_of_one :
  b64_char (N.shiftl (N.land x 3) 4) = b64_char (N.shiftl (N.land x' 3) 4) ->
  a = a'.
Proof.
  intros E1.
  pose proof (byte_parts a) as (B0 & B1 & _).
  pose proof (byte_parts a') as (B0' & B1' & _).
  apply b64_char_injective in first_char; [|assumption..].
  rewrite <- (N.lor_0_r (N.shiftl (N.land x 3) 4)),
    <- (N.lor_0_r (N.shiftl (N.land x' 3) 4)) in E1.
  apply b64_char_high_low in E1; [|assumption || reflexivity..].
  apply byte_from_2_6; [exact first_char | apply E1].
Qed.

Hypothesis second_char :
  b64_char (N.lor (N.shiftl (N.land x 3) 4) (N.shiftr y 4))
  = b64_char (N.lor (N.shiftl (N.land x' 3) 4) (N.shiftr y' 4)).

Lemma block_first_byte : a = a' /\ N.shiftr y 4 = N.shiftr y' 4.
Proof.
  pose proof (byte_parts a) as (B0 & B1 & _).
  pose proof (byte_parts a') as (B0' & B1' & _).
  pose proof (byte_parts b) as (_ & _ & B2 & _).
  pose proof (byte_parts b') as (_ & _ & B2' & _).
  pose proof first_char as E0.
  apply b64_char_injective in E0; [|assumption..].
  pose proof second_char as E1.
  apply b64_char_high_low in E1; [|assumption..].
  split; [|apply E1]. apply byte_from_2_6; [exact E0 | apply E1].
Qed.

Lemma block_of_two :
  b64_char (N.shiftl (N.land y 15) 2) = b64_char (N.shiftl (N.land y' 15) 2) ->
  a = a' /\ b = b'.
Proof.
  intros E2. destruct block_first_byte as [A H]. split; [exact A|].
  pose proof (byte_parts b) as (_ & _ & _ & B3 & _).
  pose proof (byte_parts b') as (_ & _ & _ & B3' & _).
  rewrite <- (N.lor_0_r (N.shiftl (N.land y 15) 2)),
    <- (N.lor_0_r (N.shiftl (N.land y' 15) 2)) in E2.
  apply b64_char_low_high in E2; [|assumption || reflexivity..].
  apply byte_from_4_4; [exact H | apply E2].
Qed.

Lemma block_of_three :
  b64_char (N.lor (N.shiftl (N.land y 15) 2) (N.shiftr z 6))
  = b64_char (N.lor (N.shiftl (N.land y' 15) 2) (N.shiftr z' 6)) ->
  b64_char (N.land z 63) = b64_char (N.land z' 63) ->
  a = a' /\ b = b' /\ c = c'.
Proof.
  intros E2 E3. destruct block_first_byte as [A H]. split; [exact A|].
  pose proof (byte_parts b) as (_ & _ & _ & B3 & _).
  pose proof (byte_parts b') as (_ & _ & _ & B3' & _).
  pose proof (byte_parts c) as (_ & _ & _ & _ & B4 & B5 & _).
  pose proof (byte_parts c') as (_ & _ & _ & _ & B4' & B5' & _).
  apply b64_char_low_high in E2; [|assumption..].
  apply b64_char_injective in E3; [|assumption..].
  split.
  - apply byte_from_4_4; [exact H | apply E2].
  - apply byte_from_6_2; [apply E2 | exact E3].
Qed.

End Blocks.

Lemma third_char_not_pad (b c : byte) :
  b64_char (N.lor (N.shiftl (N.land (Byte.to_N b) 15) 2)
              (N.shiftr (Byte.to_N c) 6)) <> "="%char
  /\ b64_char (N.shiftl (N.land (Byte.to_N b) 15) 2) <> "="%char
  /\ b64_char (N.land (Byte.to_N c) 63) <> "="%char.
Proof.
  pose proof (byte_parts b) as (_ & _ & _ & B3 & _).
  pose proof (byte_parts c) as (_ & _ & _ & _ & B4 & B5 & _).
  split; [|split].
  - apply b64_char_not_pad, sextet_low_high_bound; assumption.
  - rewrite <- (N.lor_0_r (N.shiftl _ 2)).
    apply b64_char_not_pad, sextet_low_high_bound; [assumption|reflexivity].
  - apply b64_char_not_pad. exact B5.
Qed.

Lemma b64encode_inj (s s' : list byte) :
  b64encode s = b64encode s' -> s = s'.
Proof.
  revert s'. induction s as [|a|a b|a b c rest IH] using bytes_ind3;
    intros [|a' [|b' [|c' rest']]] E; simpl in E;
    try reflexivity; try discriminate E.
  all: injection E; clear E; intros.
  all: try (exfalso;
            match goal with
            | H : "="%char = b64_char _ |- _ =>
                symmetry in H; revert H;
                first [ apply (third_char_not_pad b' c')
                      | apply (third_char_not_pad b' a')
                      | apply (third_char_not_pad a' c') ]
            | H : b64_char _ = "="%char |- _ =>
                revert H;
                first [ apply (third_char_not_pad b c)
                      | apply (third_char_not_pad b a)
                      | apply (third_char_not_pad a c) ]
            end; fail).
  all: idtac.
  - f_equal. apply block_of_one; assumption.
  - destruct (block_of_two a b a' b') as [-> ->]; auto.
  - destruct (block_of_three a b c a' b' c') as (-> & -> & ->); auto.
    do 3 f_equal. apply IH. assumption.
Qed.

Lemma b64encode_length (s : list byte) :
  String.length (b64encode s) = (4 * ((List.length s + 2) / 3))%nat.
Proof.
  induction s as [|a|a b|a b c rest IH] using bytes_ind3;
    try reflexivity.
  change (String.length (b64encode (a :: b :: c :: rest)))
    with (S (S (S (S (String.length (b64encode rest)))))).
  rewrite IH.
  replace (List.length (a :: b :: c :: rest) + 2)%nat
    with ((List.length rest + 2) + 1 * 3)%nat by (simpl; lia).
  rewrite Nat.div_add by discriminate. lia.
Qed.

(** X20. The data text of a range entry determines the payload: two rows
    that [load_range] reports with the same base64 text hold the same bytes,
    since [b64encode] maps different payloads to different texts. *)
Theorem range_data_determines_payload (r r' : row) :
  item_data (range_result r) = item_data (range_result r') ->
  data r = data r'.
Proof. unfold range_result. simpl. apply b64encode_inj. Qed.

Lemma range_data_determines_payload_witness :
  item_data (range_result (mkRow "a" "b" "" "" [x01; x02]))
  = item_data (range_result (mkRow "x" "" "" "" [x01; x02]))
  /\ data (mkRow "a" "b" "" "" [x01; x02])
     = data (mkRow "x" "" "" "" [x01; x02]).
Proof.
  split; [reflexivity|].
  exact (range_data_determines_payload (mkRow "a" "b" "" "" [x01; x02])
           (mkRow "x" "" "" "" [x01; x02]) eq_refl).
Defined.

(** X21. The data text of a range entry has 4 characters for every 3 bytes
    of payload, the last group counted in full: its length is
    [4 * ceil(len(data) / 3)], and the empty payload gives the empty text. *)
Theorem range_data_length (r : row) :
  String.length (item_data (range_result r))
  = (4 * ((List.length (data r) + 2) / 3))%nat
  /\ (data r = [] <-> item_data (range_result r) = "").
Proof.
  unfold range_result. simpl. split; [apply b64encode_length|].
  split; [intros ->; reflexivity|].
  intros E. apply b64encode_inj. exact E.
Qed.
